(** * NTRTsim: structure description, tag resolution, model lifecycle

    A shallow embedding of the tensegrity toolkit's core protocol as it is
    used by [UpperLimbModel.cpp], [T6RestLengthController.cpp] and the
    ICRA2015 hardware test:

    - the declarative geometric graph ([tgStructure]) and its rigid moves,
    - the tag-indexed builder registry ([tgBuildSpec]) and the resolver
      ([tgStructureInfo::buildInto]),
    - the runtime model tree with its [setup] / [step] / [teardown]
      lifecycle and the observers notified from it,
    - the rest-length controller of the SUPERball example,
    - the fixed-increment stepping loop of the simulation driver.

    C++ [double] is IEEE-754 binary64 and is embedded as Rocq's primitive
    [float]; exceptions are values of [exn]; a method that may throw after
    having mutated its object returns the mutated state next to the
    exception, as the C++ does. *)

From Stdlib Require Import Floats ZArith Lia.
From stdpp Require Import gmap strings list.

Set Warnings "-inexact-float,-register-all,-notation-for-abbreviation".

(* ===================================================================== *)
(** ** Doubles *)
(* ===================================================================== *)

Definition double : Set := float.
Bind Scope float_scope with double.

(* ===================================================================== *)
(** ** Exceptions and the state-and-exception monad *)
(* ===================================================================== *)

(** The error kinds of the core.  [InvalidArgument] is
    [std::invalid_argument] with its message; [AssertionFailed] is a failed
    [assert]. *)
Inductive exn : Type :=
| InvalidIndex (i j : Z)
| UnresolvedTag (pairIndex : nat) (tags : list string)
| InvalidArgument (what : string)
| AssertionFailed (what : string).

(** A computation over a mutable state [St]: it ends with a value or with
    an exception, and in both cases leaves a state behind. *)
Definition M (St A : Type) : Type := St -> (exn + A) * St.

Definition ret {St A} (a : A) : M St A := fun s => (inr a, s).

Definition throw {St A} (e : exn) : M St A := fun s => (inl e, s).

Definition bind {St A B} (c : M St A) (k : A -> M St B) : M St B :=
  fun s => match c s with
           | (inl e, s') => (inl e, s')
           | (inr a, s') => k a s'
           end.

Declare Scope comp_scope.
Delimit Scope comp_scope with comp.
Notation "x <~ c ;; k" := (bind c (fun x => k))
  (at level 100, c at next level, right associativity) : comp_scope.
Notation "c ;;; k" := (bind c (fun _ => k))
  (at level 100, right associativity) : comp_scope.

(** [forEach f xs]: the body of [for (i = 0; i < xs.size(); ++i) f(xs[i]);]. *)
Fixpoint forEach {St A} (f : A -> M St unit) (xs : list A) : M St unit :=
  match xs with
  | [] => ret tt
  | x :: xs' => (f x ;;; forEach f xs')%comp
  end.

(** A computation returns normally when it throws from no state. *)
Definition returns_normally {St} (c : M St unit) : Prop :=
  forall s, exists s', c s = (inr tt, s').

(* ===================================================================== *)
(** ** The geometric graph *)
(* ===================================================================== *)

Record btVector3 : Type := mkVec { vx : double; vy : double; vz : double }.

Definition vadd (a b : btVector3) : btVector3 :=
  mkVec (vx a + vx b)%float (vy a + vy b)%float (vz a + vz b)%float.

Record Node : Type := mkNode { n_pos : btVector3; n_tags : list string }.

Record Pair : Type := mkPair { p_from : nat; p_to : nat; p_tags : list string }.

(** Modelled from the spec: class [tgStructure] is not among the sources.
    A graph instance owns its nodes and pairs, in insertion order, and an
    ordered collection of child instances (spec, section 3). *)
Inductive tgStructure : Type :=
  Structure (nodes : list Node) (pairs : list Pair) (children : list tgStructure).

Definition s_nodes (s : tgStructure) : list Node :=
  match s with Structure ns _ _ => ns end.
Definition s_pairs (s : tgStructure) : list Pair :=
  match s with Structure _ ps _ => ps end.
Definition s_children (s : tgStructure) : list tgStructure :=
  match s with Structure _ _ cs => cs end.

Definition emptyStructure : tgStructure := Structure [] [] [].

(** Modelled from the spec: [addNode(x,y,z) -> index]; the index is the
    insertion rank within the scope. *)
Definition addNode (x y z : double) (s : tgStructure) : tgStructure * nat :=
  match s with
  | Structure ns ps cs =>
      (Structure (ns ++ [mkNode (mkVec x y z) []]) ps cs, length ns)
  end.

Definition in_scope (s : tgStructure) (i : Z) : bool :=
  ((0 <=? i) && (i <? Z.of_nat (length (s_nodes s))))%Z.

(** Modelled from the spec: [addPair(i, j, tags)] fails with [InvalidIndex]
    if [i] or [j] is out of range for this scope, and records the pair
    otherwise. *)
Definition addPair (i j : Z) (tags : list string) (s : tgStructure)
  : exn + tgStructure :=
  if in_scope s i && in_scope s j then
    match s with
    | Structure ns ps cs =>
        inr (Structure ns (ps ++ [mkPair (Z.to_nat i) (Z.to_nat j) tags]) cs)
    end
  else inl (InvalidIndex i j).

(** Modelled from the spec: a child graph instance is appended to the
    ordered collection of children. *)
Definition addChild (c : tgStructure) (s : tgStructure) : tgStructure :=
  match s with Structure ns ps cs => Structure ns ps (cs ++ [c]) end.

Definition moveNode (v : btVector3) (n : Node) : Node :=
  mkNode (vadd (n_pos n) v) (n_tags n).

(** Modelled from the spec: [move(offset)] applies at once to every node
    the instance owns at the time of the call and to all of its
    descendants. *)
Fixpoint move (v : btVector3) (s : tgStructure) : tgStructure :=
  match s with
  | Structure ns ps cs => Structure (map (moveNode v) ns) ps (map (move v) cs)
  end.

(* ===================================================================== *)
(** ** Builders, the registry and the resolved entities *)
(* ===================================================================== *)

(** [tgRod::Config(radius, density, friction, rollFriction, restitution)],
    in the argument order of the calls in [UpperLimbModel::setup]. *)
Record tgRodConfig : Type := mkRodConfig {
  rod_radius : double; rod_density : double; rod_friction : double;
  rod_rollFriction : double; rod_restitution : double }.

(** [tgBasicActuator::Config(stiffness, damping, pretension, history,
    maxTens, targetVelocity)]. *)
Record tgBasicActuatorConfig : Type := mkActuatorConfig {
  act_stiffness : double; act_damping : double; act_pretension : double;
  act_history : bool; act_maxTens : double; act_targetVelocity : double }.

(** The pair builders the sources register: [tgRodInfo] and
    [tgBasicActuatorInfo], each with its configuration, an opaque payload
    handed through to the entity. *)
Inductive tgPairInfo : Type :=
| tgRodInfo (c : tgRodConfig)
| tgBasicActuatorInfo (c : tgBasicActuatorConfig).

(** Modelled from the spec: a builder is a node builder or a pair builder
    (spec, section 3). *)
Inductive tgBuilder : Type :=
| NodeBuilder (label : string)
| PairBuilder (info : tgPairInfo).

(** Modelled from the spec: class [tgBuildSpec] is not among the sources.
    The registry maps a tag to exactly one builder; a second registration
    of a tag replaces the first. *)
Notation tgBuildSpec := (gmap string tgBuilder) (only parsing).

(** Modelled from the spec: [register(tag, builder)], which the sources
    call [addBuilder]. *)
Definition addBuilder (tag : string) (info : tgPairInfo) (spec : tgBuildSpec)
  : tgBuildSpec := <[tag := PairBuilder info]> spec.

Definition addNodeBuilder (tag : string) (label : string) (spec : tgBuildSpec)
  : tgBuildSpec := <[tag := NodeBuilder label]> spec.

(** What the physics engine is asked to create. *)
Inductive Entity : Type :=
| PointEntity (label : string) (pos : btVector3) (tags : list string)
| RodEntity (c : tgRodConfig) (a b : btVector3) (tags : list string)
| ActuatorEntity (c : tgBasicActuatorConfig) (a b : btVector3)
                 (tags : list string).

Definition isActuator (e : Entity) : bool :=
  match e with ActuatorEntity _ _ _ _ => true | _ => false end.

(** The result of resolving one graph instance: its own entities and the
    results for its children, in order. *)
Inductive Resolved : Type :=
  ResolvedScope (entities : list Entity) (children : list Resolved).

(** Modelled from the spec: lookup is by exact string match; among several
    registered tags the first in the element's tag order wins. *)
Fixpoint nodeBuilder (spec : tgBuildSpec) (tags : list string) : option string :=
  match tags with
  | [] => None
  | t :: ts => match spec !! t with
               | Some (NodeBuilder l) => Some l
               | _ => nodeBuilder spec ts
               end
  end.

Fixpoint pairBuilder (spec : tgBuildSpec) (tags : list string)
  : option tgPairInfo :=
  match tags with
  | [] => None
  | t :: ts => match spec !! t with
               | Some (PairBuilder info) => Some info
               | _ => pairBuilder spec ts
               end
  end.

(** Modelled from the spec: a pair builder turns a pair and its two
    resolved end points into one entity. *)
Definition buildPair (info : tgPairInfo) (from to : btVector3)
  (tags : list string) : Entity :=
  match info with
  | tgRodInfo c => RodEntity c from to tags
  | tgBasicActuatorInfo c => ActuatorEntity c from to tags
  end.

(** Modelled from the spec: a node with a matching node builder yields an
    entity; any other node is a bare anchor point and yields none. *)
Definition resolveNode (spec : tgBuildSpec) (n : Node) : list Entity :=
  match nodeBuilder spec (n_tags n) with
  | Some l => [PointEntity l (n_pos n) (n_tags n)]
  | None => []
  end.

Definition resolveNodes (spec : tgBuildSpec) (ns : list Node) : list Entity :=
  concat (map (resolveNode spec) ns).

(** Modelled from the spec: a pair none of whose tags has a pair builder
    fails with [UnresolvedTag], which carries the pair's index and tags; a
    pair that refers to a node outside its scope fails with
    [InvalidIndex]. *)
Definition resolvePair (spec : tgBuildSpec) (ns : list Node) (idx : nat)
  (p : Pair) : exn + Entity :=
  match pairBuilder spec (p_tags p) with
  | None => inl (UnresolvedTag idx (p_tags p))
  | Some info =>
      match ns !! p_from p, ns !! p_to p with
      | Some a, Some c => inr (buildPair info (n_pos a) (n_pos c) (p_tags p))
      | _, _ => inl (InvalidIndex (Z.of_nat (p_from p)) (Z.of_nat (p_to p)))
      end
  end.

Fixpoint resolvePairs (spec : tgBuildSpec) (ns : list Node) (idx : nat)
  (ps : list Pair) : exn + list Entity :=
  match ps with
  | [] => inr []
  | p :: ps' =>
      match resolvePair spec ns idx p with
      | inl e => inl e
      | inr ent =>
          match resolvePairs spec ns (S idx) ps' with
          | inl e => inl e
          | inr ents => inr (ent :: ents)
          end
      end
  end.

(** [mapE f xs] applies a fallible [f] from left to right and stops at the
    first failure. *)
Definition mapE {A B} (f : A -> exn + B) : list A -> exn + list B :=
  fix go (xs : list A) : exn + list B :=
    match xs with
    | [] => inr []
    | x :: xs' =>
        match f x with
        | inl e => inl e
        | inr y => match go xs' with
                   | inl e => inl e
                   | inr ys => inr (y :: ys)
                   end
        end
    end.

(** Modelled from the spec: the resolver of [tgStructureInfo] is not among
    the sources.  Depth first; in each scope the nodes first, then the
    pairs with their two resolved end points, then the children; the first
    element that cannot be resolved aborts the whole resolution. *)
Fixpoint resolveGraph (spec : tgBuildSpec) (s : tgStructure) : exn + Resolved :=
  match s with
  | Structure ns ps cs =>
      let points := resolveNodes spec ns in
      match resolvePairs spec ns 0 ps with
      | inl e => inl e
      | inr links =>
          match mapE (resolveGraph spec) cs with
          | inl e => inl e
          | inr kids => inr (ResolvedScope (points ++ links) kids)
          end
      end
  end.

(** All entities of a resolved tree, a scope's own before its children's. *)
Fixpoint allEntities (r : Resolved) : list Entity :=
  match r with
  | ResolvedScope es kids => es ++ concat (map allEntities kids)
  end.

(** The graph instances of a tree: the instance itself and its descendants. *)
Fixpoint scopes (s : tgStructure) : list tgStructure :=
  s :: concat (map scopes (s_children s)).

(** The invariant [addPair] maintains: every pair of every scope refers to
    nodes of that scope. *)
Definition pairInScope (ns : list Node) (p : Pair) : bool :=
  (p_from p <? length ns)%nat && (p_to p <? length ns)%nat.

Fixpoint wellFormed (s : tgStructure) : bool :=
  match s with
  | Structure ns ps cs => forallb (pairInScope ns) ps && forallb wellFormed cs
  end.

Definition moveEntity (v : btVector3) (e : Entity) : Entity :=
  match e with
  | PointEntity l pos tags => PointEntity l (vadd pos v) tags
  | RodEntity c a b tags => RodEntity c (vadd a v) (vadd b v) tags
  | ActuatorEntity c a b tags => ActuatorEntity c (vadd a v) (vadd b v) tags
  end.

Fixpoint moveResolved (v : btVector3) (r : Resolved) : Resolved :=
  match r with
  | ResolvedScope es kids =>
      ResolvedScope (map (moveEntity v) es) (map (moveResolved v) kids)
  end.

Definition mapResult {A B} (f : A -> B) (r : exn + A) : exn + B :=
  match r with inl e => inl e | inr a => inr (f a) end.

(* ===================================================================== *)
(** ** The world, the observers and the runtime model tree *)
(* ===================================================================== *)

(** What can be seen of a run from outside the model tree: the requests
    made to the physics engine and the observer callbacks invoked, in the
    order in which they happen. *)
Inductive Event : Type :=
| EvCreate (e : Entity)
| EvRelease (e : Entity)
| EvOnSetup (observer : string)
| EvOnStep (observer : string) (dt : double)
| EvOnTeardown (observer : string)
| EvIntegrate (dt : double)
| EvVisit.

Inductive Lifecycle : Type := Unbuilt | SetUp | Stepping | TornDown.

Section Runtime.

(** [St] is the state of the engine-level entities: what controllers
    mutate through actuator handles and what the engine integrates. *)
Context {St : Type}.

Record World : Type := mkWorld { w_log : list Event; w_state : St }.

(** An observer, with the callbacks the controllers of the sources
    override ([T6RollingController.h], [T6RestLengthController.cpp]) and
    the teardown callback of the spec: [onSetup(subject)],
    [onStep(subject, dt)] and [onTeardown(subject)].  The subject is seen
    through what [getAllMuscles()] returns.  [obs_name] tells observers
    apart in the log. *)
Record tgObserver : Type := mkObserver {
  obs_name : string;
  onSetup : list Entity -> M St unit;
  onStep : list Entity -> double -> M St unit;
  onTeardown : list Entity -> M St unit }.

(** Modelled from the spec: class [tgModel] is not among the sources.  A
    runtime object holds its attached observers, its resolved entities and
    its owned children; [muscles] is the member [allMuscles] of
    [UpperLimbModel]; [life] is the lifecycle state of the spec, which no
    method tests. *)
Inductive tgModel : Type :=
  Model (observers : list tgObserver) (muscles : list Entity)
        (entities : list Entity) (children : list tgModel) (life : Lifecycle).

Definition m_observers (m : tgModel) : list tgObserver :=
  match m with Model os _ _ _ _ => os end.
Definition allMuscles (m : tgModel) : list Entity :=
  match m with Model _ ms _ _ _ => ms end.
Definition m_entities (m : tgModel) : list Entity :=
  match m with Model _ _ es _ _ => es end.
Definition m_children (m : tgModel) : list tgModel :=
  match m with Model _ _ _ cs _ => cs end.
Definition m_life (m : tgModel) : Lifecycle :=
  match m with Model _ _ _ _ l => l end.

(** [UpperLimbModel::getAllMuscles]. *)
Definition getAllMuscles (m : tgModel) : list Entity := allMuscles m.

(** Modelled from the spec: [attach(observer)] stores the observer behind
    those already attached. *)
Definition attach (o : tgObserver) (m : tgModel) : tgModel :=
  match m with Model os ms es cs l => Model (os ++ [o]) ms es cs l end.

(** A method of a runtime object: it may mutate the object and the world,
    and may throw. *)
Definition Method : Type :=
  tgModel -> World -> (exn + unit) * tgModel * World.

(** Logging, and running a computation on the entity state. *)
Definition emit (ev : Event) : M World unit :=
  fun w => (inr tt, mkWorld (w_log w ++ [ev]) (w_state w)).

Definition emitAll (evs : list Event) : M World unit :=
  fun w => (inr tt, mkWorld (w_log w ++ evs) (w_state w)).

Definition onEntities {A} (c : M St A) : M World A :=
  fun w => match c (w_state w) with (r, s') => (r, mkWorld (w_log w) s') end.

(** Modelled from the spec: [tgSubject::notifySetup], [notifyStep] and
    [notifyTeardown] are not among the sources.  Every attached observer
    is called, in attachment order. *)
Definition notifySetup (m : tgModel) : M World unit :=
  forEach (fun o => emit (EvOnSetup (obs_name o)) ;;;
                    onEntities (onSetup o (allMuscles m)))%comp
          (m_observers m).

Definition notifyStep (dt : double) (m : tgModel) : M World unit :=
  forEach (fun o => emit (EvOnStep (obs_name o) dt) ;;;
                    onEntities (onStep o (allMuscles m) dt))%comp
          (m_observers m).

Definition notifyTeardown (m : tgModel) : M World unit :=
  forEach (fun o => emit (EvOnTeardown (obs_name o)) ;;;
                    onEntities (onTeardown o (allMuscles m)))%comp
          (m_observers m).

(** Modelled from the spec: a method run on each owned child in turn; the
    first exception stops the loop and leaves the later children
    untouched. *)
Definition eachChild (f : Method)
  : list tgModel -> World -> (exn + unit) * list tgModel * World :=
  fix go (cs : list tgModel) (w : World) :=
    match cs with
    | [] => (inr tt, [], w)
    | c :: cs' =>
        match f c w with
        | (inl e, c', w') => (inl e, c' :: cs', w')
        | (inr _, c', w') =>
            match go cs' w' with
            | (r, cs'', w'') => (r, c' :: cs'', w'')
            end
        end
    end.

Definition withChildren (cs : list tgModel) (l : Lifecycle) (m : tgModel)
  : tgModel :=
  match m with Model os ms es _ _ => Model os ms es cs l end.

(** Modelled from the spec: [tgModel::step(dt)] is not among the sources.
    It steps the owned children in order, each by its own [step], and the
    object is then Stepping. *)
Definition tgModel_step (childStep : Method) : Method :=
  fun m w =>
    match eachChild childStep (m_children m) w with
    | (inl e, cs, w1) => (inl e, withChildren cs (m_life m) m, w1)
    | (inr _, cs, w1) => (inr tt, withChildren cs Stepping m, w1)
    end.

(** [UpperLimbModel::step]: the guard on [dt], then [notifyStep(dt)], then
    [tgModel::step(dt)].  A child is a runtime object with this same
    [step]. *)
Fixpoint step (dt : double) (m : tgModel) (w : World)
  : (exn + unit) * tgModel * World :=
  if (dt <=? 0.0)%float then
    (inl (InvalidArgument "dt is not positive"), m, w)
  else
    match notifyStep dt m w with
    | (inl e, w1) => (inl e, m, w1)
    | (inr _, w1) => tgModel_step (step dt) m w1
    end.

(** Modelled from the spec: the runtime object of a resolved child scope
    holds the scope's entities and the runtime objects of its children; no
    observer is attached to it yet. *)
Fixpoint modelOfResolved (r : Resolved) : tgModel :=
  match r with
  | ResolvedScope es kids => Model [] [] es (map modelOfResolved kids) Unbuilt
  end.

(** Modelled from the spec: [tgStructureInfo::buildInto(model, world)] is
    not among the sources.  The graph is resolved as a whole first; only
    when that succeeds are the entities created in the world and handed to
    the model. *)
Definition buildInto (s : tgStructure) (spec : tgBuildSpec) : Method :=
  fun m w =>
    match resolveGraph spec s with
    | inl e => (inl e, m, w)
    | inr (ResolvedScope es kids) =>
        match m with
        | Model os ms es0 cs0 l =>
            (inr tt,
             Model os ms (es0 ++ es) (cs0 ++ map modelOfResolved kids) l,
             mkWorld (w_log w ++ map EvCreate (allEntities (ResolvedScope es kids)))
                     (w_state w))
        end
    end.

(** Modelled from the spec: [getDescendants()] is not among the sources;
    it is read at the level of entities, the object's own before its
    children's. *)
Fixpoint getDescendants (m : tgModel) : list Entity :=
  m_entities m ++ concat (map getDescendants (m_children m)).

Definition withMuscles (ms : list Entity) (m : tgModel) : tgModel :=
  match m with Model os _ es cs l => Model os ms es cs l end.

(** Modelled from the spec: [tgModel::setup(world)] is not among the
    sources.  It sets up the owned children, each of which notifies its
    own observers, and the object is then Set Up. *)
Fixpoint tgModel_setup (m : tgModel) (w : World)
  : (exn + unit) * tgModel * World :=
  match eachChild (fun c w0 => match notifySetup c w0 with
                               | (inl e, w1) => (inl e, c, w1)
                               | (inr _, w1) => tgModel_setup c w1
                               end)
                  (m_children m) w with
  | (inl e, cs, w2) => (inl e, withChildren cs (m_life m) m, w2)
  | (inr _, cs, w2) => (inr tt, withChildren cs SetUp m, w2)
  end.

(** [UpperLimbModel::setup], for the structure [build] hands over and the
    build specification [spec]: build into this model, collect the
    muscles, [notifySetup()], then [tgModel::setup(world)].  [build] is the
    outcome of the [addNode] / [addPair] / [move] calls. *)
Definition setup (build : exn + tgStructure) (spec : tgBuildSpec) : Method :=
  fun m w =>
    match build with
    | inl e => (inl e, m, w)
    | inr s =>
        match buildInto s spec m w with
        | (inl e, m1, w1) => (inl e, m1, w1)
        | (inr _, m1, w1) =>
            let m2 := withMuscles (filter (fun e => isActuator e = true)
                                          (getDescendants m1)) m1 in
            match notifySetup m2 w1 with
            | (inl e, w2) => (inl e, m2, w2)
            | (inr _, w2) => tgModel_setup m2 w2
            end
        end
    end.

(** Modelled from the spec: the engine-level handles of the object's
    entities are released, one by one. *)
Definition releaseAll (m : tgModel) : M World unit :=
  emitAll (map EvRelease (m_entities m)).

(** Modelled from the spec: [tgModel::teardown()] is not among the
    sources.  It tears down the owned children, releases the engine-level
    handles of the object and leaves it Torn Down, owning nothing. *)
Definition tgModel_teardown (childTeardown : Method) : Method :=
  fun m w =>
    match eachChild childTeardown (m_children m) w with
    | (inl e, cs, w1) => (inl e, withChildren cs (m_life m) m, w1)
    | (inr _, cs, w1) =>
        match releaseAll m w1 with
        | (_, w2) =>
            (inr tt, Model (m_observers m) (allMuscles m) [] [] TornDown, w2)
        end
    end.

(** [UpperLimbModel::teardown]: [notifyTeardown()], then
    [tgModel::teardown()]. *)
Fixpoint teardown (m : tgModel) (w : World) : (exn + unit) * tgModel * World :=
  match notifyTeardown m w with
  | (inl e, w1) => (inl e, m, w1)
  | (inr _, w1) => tgModel_teardown teardown m w1
  end.

End Runtime.

Arguments World : clear implicits.
Arguments tgObserver : clear implicits.
Arguments tgModel : clear implicits.
Arguments Method : clear implicits.

(* ===================================================================== *)
(** ** The simulation driver *)
(* ===================================================================== *)

Section Driver.

Context {St : Type}.

(** Modelled from the spec: the driver's configuration is the step size
    handed to [tgSimView], whether a render or sensor visitor is invoked
    after each increment, and the physics engine's [step(dt)], an external
    collaborator. *)
Record tgSimulation : Type := mkSimulation {
  sim_stepSize : double;
  sim_visit : bool;
  sim_engine : double -> St -> St }.

(** Modelled from the spec: the physics engine advances the entity state
    by [dt]. *)
Definition worldStep (sim : tgSimulation) : M (World St) unit :=
  fun w => (inr tt,
            mkWorld (w_log w ++ [EvIntegrate (sim_stepSize sim)])
                    (sim_engine sim (sim_stepSize sim) (w_state w))).

(** Modelled from the spec: the render and sensor visitors, when there
    are any, come after the engine. *)
Definition visit (sim : tgSimulation) : M (World St) unit :=
  if sim_visit sim then emit EvVisit else ret tt.

(** Modelled from the spec: [tgSimulation::addModel] is not among the
    sources.  The model is inserted and its setup is triggered. *)
Definition addModel (modelSetup : Method St) (m : tgModel St)
  (models : list (tgModel St)) (w : World St)
  : (exn + unit) * list (tgModel St) * World St :=
  match modelSetup m w with
  | (r, m', w') => (r, models ++ [m'], w')
  end.

(** Modelled from the spec: one increment of [run] steps the model tree
    with the configured [dt], then advances the physics engine by the same
    [dt], then invokes the visitors. *)
Definition runIncrement (sim : tgSimulation) (models : list (tgModel St))
  (w : World St) : (exn + unit) * list (tgModel St) * World St :=
  match eachChild (step (sim_stepSize sim)) models w with
  | (inl e, ms, w1) => (inl e, ms, w1)
  | (inr _, ms, w1) =>
      match (worldStep sim ;;; visit sim)%comp w1 with
      | (r, w2) => (r, ms, w2)
      end
  end.

(** Modelled from the spec: the increments follow one another; an
    exception ends the loop. *)
Fixpoint runLoop (sim : tgSimulation) (n : nat) (models : list (tgModel St))
  (w : World St) : (exn + unit) * list (tgModel St) * World St :=
  match n with
  | O => (inr tt, models, w)
  | S n' =>
      match runIncrement sim models w with
      | (inl e, ms, w1) => (inl e, ms, w1)
      | (inr _, ms, w1) => runLoop sim n' ms w1
      end
  end.

(** Modelled from the spec: [tgSimulation::run(steps)] is not among the
    sources.  [steps] increments, one after the other. *)
Definition run (sim : tgSimulation) (steps : Z) (models : list (tgModel St))
  (w : World St) : (exn + unit) * list (tgModel St) * World St :=
  runLoop sim (Z.to_nat steps) models w.

End Driver.

Arguments tgSimulation : clear implicits.

(** The log a successful [step(dt)] of a model tree leaves: the model's own
    observers in attachment order, then its children's trees in order. *)
Fixpoint stepTrace {St} (dt : double) (m : tgModel St) : list Event :=
  map (fun o => EvOnStep (obs_name o) dt) (m_observers m)
  ++ concat (map (stepTrace dt) (m_children m)).

(** The log the setup of a tree of children leaves: a child's observers,
    then the child's own children. *)
Fixpoint setupTrace {St} (m : tgModel St) : list Event :=
  map (fun o => EvOnSetup (obs_name o)) (m_observers m)
  ++ concat (map setupTrace (m_children m)).

(** The log a successful [teardown] leaves: the observers, the children's
    teardown, the release of the object's own handles. *)
Fixpoint teardownTrace {St} (m : tgModel St) : list Event :=
  map (fun o => EvOnTeardown (obs_name o)) (m_observers m)
  ++ concat (map teardownTrace (m_children m))
  ++ map EvRelease (m_entities m).

(** The observers of a model tree with the subject each is notified
    with, in notification order. *)
Fixpoint treeObservers {St} (m : tgModel St) : list (tgObserver St * list Entity) :=
  map (fun o => (o, allMuscles m)) (m_observers m)
  ++ concat (map treeObservers (m_children m)).

(** One increment's log: every [onStep] of every model, then the engine. *)
Definition incrementTrace {St} (sim : tgSimulation St) (models : list (tgModel St))
  : list Event :=
  concat (map (stepTrace (sim_stepSize sim)) models)
  ++ [EvIntegrate (sim_stepSize sim)]
  ++ (if sim_visit sim then [EvVisit] else []).

Definition isIntegrate (ev : Event) : bool :=
  match ev with EvIntegrate _ => true | _ => false end.

(* ===================================================================== *)
(** ** [UpperLimbModel.cpp] *)
(* ===================================================================== *)

Definition bindE {A B} (r : exn + A) (k : A -> exn + B) : exn + B :=
  match r with inl e => inl e | inr a => k a end.

Module UpperLimbModel.

Record ConfigRod : Type := mkConfigRod {
  density : double; radius : double; rod_length : double; rod_space : double;
  friction : double; rollFriction : double; restitution : double }.

Definition cRod : ConfigRod :=
  mkConfigRod 0.05 0.8 15.0 7.5 1.0 0.01 0.2.

Record ConfigCable : Type := mkConfigCable {
  elasticity : double; damping : double; stiffness : double;
  pretension_olecranon : double; pretension_anconeus : double;
  pretension_brachioradialis : double; pretension_support : double;
  history : bool; maxTens : double; targetVelocity : double;
  mRad : double; motorFriction : double; motorInertia : double;
  backDrivable : bool }.

Definition cCable : ConfigCable :=
  mkConfigCable 1000.0 200.0 3000.0
                (3000.0 / 1)%float (3000.0 / 15.55)%float
                (3000.0 / 262)%float (30000.0 / 1)%float
                false 100000 10000 1.0 10.0 1.0 false.

Definition scale : double := 0.5.
Definition bone_scale : double := 0.3.
Definition nNodes : nat := 14.

Definition b : double := (334 * scale * bone_scale)%float.
Definition c : double := (265 * scale * bone_scale)%float.
Definition g : double := (17 * scale)%float.
Definition e : double := (g / 4)%float.

(** The fourteen [nodePositions.push_back(btVector3(..))] of [addNodes];
    [btScalar] is taken to be [double]. *)
Definition nodePositions : list btVector3 :=
  [ mkVec 0 0 0;
    mkVec (- g)%float g 0;
    mkVec g g 0;
    mkVec g (- g)%float 0;
    mkVec (3 * e)%float 0 g;
    mkVec (3 * e)%float 0 (- g)%float;
    mkVec (7 * e)%float 0 0;
    mkVec (b + 7 * e)%float 0 0;
    mkVec 0 (3 * e)%float g;
    mkVec 0 (3 * e)%float (- g)%float;
    mkVec 0 (7 * e)%float 0;
    mkVec 0 (c + 7 * e)%float 0;
    mkVec 0 (c + 7 * e + g)%float g;
    mkVec 0 (c + 7 * e + g)%float (- g)%float ].

(** [for (i = 0; i < nNodes; i++) s.addNode(..)]. *)
Definition addNodes (s : tgStructure) : tgStructure :=
  fold_left (fun s0 p => fst (addNode (vx p) (vy p) (vz p) s0))
            (take nNodes nodePositions) s.

Section Tags.

(** How the string handed to [s.addPair(i, j, "...")] becomes the pair's
    tags is decided by the tag classes, which are not among the sources;
    it is a parameter here. *)
Variable tagsOf : string -> list string.

(** A run of [s.addPair(i, j, str);] statements. *)
Fixpoint addPairs (calls : list (Z * Z * string)) (s : tgStructure)
  : exn + tgStructure :=
  match calls with
  | [] => inr s
  | (i, j, str) :: rest => bindE (addPair i j (tagsOf str) s) (addPairs rest)
  end.

Definition addRods (s : tgStructure) : exn + tgStructure :=
  addPairs
    [ (0, 1, "bone"); (0, 2, "bone"); (0, 3, "bone");
      (4, 6, "bone"); (5, 6, "bone"); (6, 7, "bone");
      (8, 10, "humerus massless"); (9, 10, "humerus massless");
      (10, 11, "humerus massless"); (11, 12, "humerus massless");
      (11, 13, "humerus massless") ]%Z s.

Definition addMuscles (s : tgStructure) : exn + tgStructure :=
  addPairs
    [ (6, 2, "olecranon muscle"); (6, 3, "olecranon muscle");
      (4, 0, "olecranon muscle"); (4, 2, "olecranon muscle");
      (4, 3, "olecranon muscle"); (4, 8, "right anocneus  muscle");
      (5, 0, "olecranon muscle"); (5, 2, "olecranon muscle");
      (5, 3, "olecranon muscle"); (5, 9, "left anconeus muscle");
      (8, 0, "olecranon muscle"); (8, 1, "olecranon muscle");
      (8, 2, "olecranon muscle");
      (9, 0, "olecranon muscle"); (9, 1, "olecranon muscle");
      (9, 2, "olecranon muscle");
      (10, 1, "olecranon muscle"); (10, 2, "brachioradialis muscle") ]%Z s.

Definition offset : btVector3 := mkVec 0.0 50.0 0.0.

(** The structure [setup] creates: nodes, rods, muscles, then the move out
    of the ground. *)
Definition structure : exn + tgStructure :=
  bindE (addRods (addNodes emptyStructure)) (fun s1 =>
  bindE (addMuscles s1) (fun s2 =>
  inr (move offset s2))).

End Tags.

Definition boneConfig : tgRodConfig :=
  mkRodConfig (radius cRod) (density cRod) (friction cRod)
              (rollFriction cRod) (restitution cRod).

Definition boneConfigMassless : tgRodConfig :=
  mkRodConfig (radius cRod) 0.00 (friction cRod)
              (rollFriction cRod) (restitution cRod).

Definition muscleConfig (pretension : double) : tgBasicActuatorConfig :=
  mkActuatorConfig (stiffness cCable) (damping cCable) pretension
                   (history cCable) (maxTens cCable) (targetVelocity cCable).

Definition olecranonMuscleConfig := muscleConfig (pretension_olecranon cCable).
Definition anconeusMuscleConfig := muscleConfig (pretension_anconeus cCable).
Definition brachioradialisMuscleConfig :=
  muscleConfig (pretension_brachioradialis cCable).
Definition supportstringMuscleConfig := muscleConfig (pretension_support cCable).

(** The build specification of [setup], in registration order. *)
Definition spec : gmap string tgBuilder :=
  addBuilder "support muscle" (tgBasicActuatorInfo supportstringMuscleConfig)
  (addBuilder "brachioradialis muscle"
              (tgBasicActuatorInfo brachioradialisMuscleConfig)
  (addBuilder "anconeus muscle" (tgBasicActuatorInfo anconeusMuscleConfig)
  (addBuilder "olecranon muscle" (tgBasicActuatorInfo olecranonMuscleConfig)
  (addBuilder "massless" (tgRodInfo boneConfigMassless)
  (addBuilder "bone" (tgRodInfo boneConfig) ∅))))).

(** [UpperLimbModel::setup(world)]. *)
Definition setup {St} (tagsOf : string -> list string) : Method St :=
  setup (structure tagsOf) spec.

End UpperLimbModel.

(** Two readings of the string handed to [addPair]: the string is one tag,
    or it is a list of tags separated by white space. *)
Definition oneTag (str : string) : list string := [str].
Definition spacedTags (str : string) : list string := String.words str.

(* ===================================================================== *)
(** ** [T6RestLengthController.cpp] *)
(* ===================================================================== *)

(** What the controller calls on a [tgLinearString], a class that is not
    among the sources. *)
Class LinearString (T : Type) : Type := {
  getStartLength : T -> double;
  setRestLengthSingleStep : double -> T -> T }.

Module T6RestLengthController.

Record T6RestLengthController : Type := mkController {
  m_restLengthDiff : double }.

(** The subject, seen through [getAllMuscles()]: a vector of pointers.  A
    pointer is an address; the null pointer addresses no object. *)
Record T6Model : Type := mkT6Model { getAllMuscles : list nat }.

(** The constructor: the member is initialised, and a negative argument
    throws, so that no controller comes into being. *)
Definition new (restLengthDiff : double) : exn + T6RestLengthController :=
  let this := mkController restLengthDiff in
  if (restLengthDiff <? 0.0)%float then
    inl (InvalidArgument "You tried to push a rope!")
  else inr this.

Section Strings.

Context {T : Type} `{LinearString T}.

(** [pMuscle = muscles[i]; assert(pMuscle != NULL);] *)
Definition deref (p : nat) : M (gmap nat T) T :=
  fun heap => match heap !! p with
              | Some muscle => (inr muscle, heap)
              | None => (inl (AssertionFailed "pMuscle != NULL"), heap)
              end.

Definition store (p : nat) (muscle : T) : M (gmap nat T) unit :=
  fun heap => (inr tt, <[p := muscle]> heap).

Definition onSetup (this : T6RestLengthController) (subject : T6Model)
  : M (gmap nat T) unit :=
  let muscles := getAllMuscles subject in
  forEach (fun pMuscle =>
             muscle <~ deref pMuscle ;;
             let desiredRestLength :=
               (getStartLength muscle - m_restLengthDiff this)%float in
             store pMuscle (setRestLengthSingleStep desiredRestLength muscle))%comp
          muscles.

(** In [onStep] the call that would set the rest length is commented out:
    the loop computes [desiredRestLength] and drops it. *)
Definition onStep (this : T6RestLengthController) (subject : T6Model)
  (dt : double) : M (gmap nat T) unit :=
  if (dt <=? 0.0)%float then
    throw (InvalidArgument "dt is not positive")
  else
    let muscles := getAllMuscles subject in
    forEach (fun pMuscle =>
               muscle <~ deref pMuscle ;;
               let desiredRestLength :=
                 (getStartLength muscle - m_restLengthDiff this)%float in
               ret tt)%comp
            muscles.

End Strings.

End T6RestLengthController.

(** The update [onSetup] makes to one muscle. *)
Definition retarget {T} `{LinearString T} (diff : double) (muscle : T) : T :=
  setRestLengthSingleStep (getStartLength muscle - diff)%float muscle.

(* ===================================================================== *)
(** ** The ICRA2015 hardware test *)
(* ===================================================================== *)

Module HardwareTest.

Definition stepSize : double := (1.0 / 2000.0)%float.

(** [TEST_F(HardwareTest, ICRA2015Static)]: attach the controller, add the
    model (which sets it up), run 120000 increments once ([while (i < 1)]).
    The model class and the controller class of the test are not among the
    sources; the model's [setup] and the controller are parameters, as is
    the engine, which holds the gravity of [tgWorld::Config].  The view is
    not a graphics view: no visitor runs. *)
Definition ICRA2015Static {St} (engine : double -> St -> St)
  (modelSetup : Method St) (myModel : tgModel St) (myControl : tgObserver St)
  (w : World St) : (exn + unit) * list (tgModel St) * World St :=
  let simulation := mkSimulation stepSize false engine in
  let myModel := attach myControl myModel in
  match addModel modelSetup myModel [] w with
  | (inl e, models, w1) => (inl e, models, w1)
  | (inr _, models, w1) => run simulation 120000 models w1
  end.

End HardwareTest.

(* ===================================================================== *)
(** ** Derived notions used in the statements *)
(* ===================================================================== *)

(** The model tree with every object in lifecycle state [l]. *)
Fixpoint markAll {St} (l : Lifecycle) (m : tgModel St) : tgModel St :=
  match m with
  | Model os ms es cs _ => Model os ms es (map (markAll l) cs) l
  end.

(** A pair none of whose tags is a key of the registry. *)
Definition unregistered (spec : gmap string tgBuilder) (p : Pair) : Prop :=
  Forall (fun t => spec !! t = None) (p_tags p).

(** [(idx, tags)] names a pair of the graph that no pair builder of the
    registry resolves: the pair at index [idx] of one of the graph's scopes
    carries exactly [tags]. *)
Definition offendingPair (spec : gmap string tgBuilder) (s : tgStructure)
  (idx : nat) (tags : list string) : Prop :=
  exists scope q, In scope (scopes s) /\ s_pairs scope !! idx = Some q /\
                  p_tags q = tags /\ pairBuilder spec tags = None.

(** The callbacks the tree's observers would receive return normally:
    [onStep] with the subject each observer is attached to and the given
    [dt]; [onSetup] and [onTeardown] with any subject. *)
Definition stepSafe {St} (dt : double) (m : tgModel St) : Prop :=
  Forall (fun os => returns_normally (onStep (fst os) (snd os) dt))
         (treeObservers m).

Definition setupSafe {St} (m : tgModel St) : Prop :=
  Forall (fun os => forall subject, returns_normally (onSetup (fst os) subject))
         (treeObservers m).

Definition teardownSafe {St} (m : tgModel St) : Prop :=
  Forall (fun os => returns_normally (onTeardown (fst os) (snd os)))
         (treeObservers m).

(** What [teardown] leaves of a runtime object: its observers and its
    list of muscles, no entity, no child, Torn Down. *)
Definition tornDown {St} (m : tgModel St) : tgModel St :=
  Model (m_observers m) (allMuscles m) [] [] TornDown.

Fixpoint countEvents (p : Event -> bool) (evs : list Event) : nat :=
  match evs with
  | [] => 0
  | ev :: evs' => (if p ev then 1 else 0) + countEvents p evs'
  end.

(** [w'] continues the log of [w] with an initial part of [expected], and
    with all of it when the outcome [r] is a normal return. *)
Definition logsPrefix {St} (expected : list Event) (w : World St)
  (r : exn + unit) (w' : World St) : Prop :=
  exists evs, w_log w' = w_log w ++ evs /\ evs `prefix_of` expected /\
              (r = inr tt -> evs = expected).

(** What a method does on one object: the log grows within [tr m], and a
    normal return leaves [g m]. *)
Definition runsWithin {St} (f : Method St) (tr : tgModel St -> list Event)
  (g : tgModel St -> tgModel St) (m : tgModel St) : Prop :=
  forall w, match f m w with
            | (r, m', w') => logsPrefix (tr m) w r w' /\ (r = inr tt -> m' = g m)
            end.

(** Stubs for concrete runs: an engine state that counts the callbacks it
    has seen, an observer that records its call there, a muscle with a
    start length and a requested rest length. *)
Definition recorder (name : string) : tgObserver nat :=
  mkObserver name
    (fun _ n => (inr tt, S n))
    (fun _ _ n => (inr tt, S n))
    (fun _ n => (inr tt, S n)).

Record StubString : Type := mkStubString {
  startLength : double; restLength : double }.

#[global] Instance StubString_LinearString : LinearString StubString := {
  getStartLength := startLength;
  setRestLengthSingleStep := fun l m => mkStubString (startLength m) l }.

Definition stubRod : Entity :=
  RodEntity UpperLimbModel.boneConfig (mkVec 0 0 0) (mkVec 0 10 0) ["rod"].

(** A graph of two nodes and one pair tagged "rod", a registry that
    resolves that tag to a rod, and a model to which two observers were
    attached before any setup. *)
Definition rodStructure : exn + tgStructure :=
  let (s1, i) := addNode 0 0 0 emptyStructure in
  let (s2, j) := addNode 0 10 0 s1 in
  addPair (Z.of_nat i) (Z.of_nat j) ["rod"] s2.

Definition rodSpec : gmap string tgBuilder :=
  addBuilder "rod" (tgRodInfo UpperLimbModel.boneConfig) ∅.

Definition freshModel : tgModel nat :=
  attach (recorder "second")
         (attach (recorder "first") (Model [] [] [] [] Unbuilt)).

(** A model that was set up: two observers, one entity, and one child that
    has an observer of its own. *)
Definition stubModel : tgModel nat :=
  Model [recorder "first"; recorder "second"] [] [stubRod]
        [Model [recorder "inner"] [] [] [] SetUp] SetUp.

(** [UpperLimbModel::addNodes] together with the vector it pushes to.
    [nodePositions] is not a local of [addNodes]: it is declared outside
    the function and outlives the call, so the fourteen [push_back] append
    to whatever earlier calls have left in it, and the loop then reads the
    entries at the indices [0 .. nNodes - 1] of the whole vector.  An index
    past the end, where [operator[]] has no defined result, adds nothing
    here. *)
Definition addNodes_appending (member : list btVector3) (s : tgStructure)
  : list btVector3 * tgStructure :=
  let nodePositions := member ++ UpperLimbModel.nodePositions in
  (nodePositions,
   fold_left (fun s0 i =>
                match nodePositions !! i with
                | Some p => fst (addNode (vx p) (vy p) (vz p) s0)
                | None => s0
                end)
             (seq 0 UpperLimbModel.nNodes) s).

(** One [s.addPair(i, j, str);] statement: the pair it records, and
    whether both of its indices are nodes of the scope. *)
Definition pairOfCall (tagsOf : string -> list string) (call : Z * Z * string)
  : Pair :=
  match call with (i, j, str) => mkPair (Z.to_nat i) (Z.to_nat j) (tagsOf str) end.

Definition callInScope (s : tgStructure) (call : Z * Z * string) : bool :=
  match call with (i, j, _) => in_scope s i && in_scope s j end.

(** The entities of a resolved tree in the order in which a teardown
    releases them: the children's before the scope's own. *)
Fixpoint releaseOrder (r : Resolved) : list Entity :=
  match r with
  | ResolvedScope es kids => concat (map releaseOrder kids) ++ es
  end.

(* ===================================================================== *)
(** * Properties *)
(* ===================================================================== *)

(* ===================================================================== *)
(** ** Doubles against zero *)
(* ===================================================================== *)

(** The guards of the sources compare a double against the literal [0.0].
    The two facts below relate the comparison a guard tests to the one a
    caller establishes; they hold for every binary64 value, NaN and the
    signed zeros included. *)

Lemma double_pos_not_nonpos (x : double) :
  (0 <? x)%float = true -> (x <=? 0)%float = false.
Proof.
  rewrite ltb_spec, leb_spec.
  change (Prim2SF 0) with (S754_zero false).
  destruct (Prim2SF x) as [s|s| |s m e]; try destruct s; cbn; congruence.
Qed.

Lemma double_nonneg_not_neg (x : double) :
  (0 <=? x)%float = true -> (x <? 0)%float = false.
Proof.
  rewrite ltb_spec, leb_spec.
  change (Prim2SF 0) with (S754_zero false).
  destruct (Prim2SF x) as [s|s| |s m e]; try destruct s; cbn; congruence.
Qed.

(* ===================================================================== *)
(** ** Induction principles *)
(* ===================================================================== *)

(** Induction over the tree of graph instances. *)
Lemma tgStructure_tree_ind (P : tgStructure -> Prop) :
  (forall ns ps cs, Forall P cs -> P (Structure ns ps cs)) ->
  forall s, P s.
Proof.
  intros step. fix IH 1. intros [ns ps cs]. apply step.
  induction cs as [|c cs IHcs]; constructor; [apply IH | exact IHcs].
Qed.

Lemma tgModel_tree_ind {St} (P : tgModel St -> Prop) :
  (forall os ms es cs l, Forall P cs -> P (Model os ms es cs l)) ->
  forall m, P m.
Proof.
  intros step. fix IH 1. intros [os ms es cs l]. apply step.
  induction cs as [|c cs IHcs]; constructor; [apply IH | exact IHcs].
Qed.

Lemma Resolved_tree_ind (P : Resolved -> Prop) :
  (forall es kids, Forall P kids -> P (ResolvedScope es kids)) ->
  forall r, P r.
Proof.
  intros step. fix IH 1. intros [es kids]. apply step.
  induction kids as [|k kids IHkids]; constructor; [apply IH | exact IHkids].
Qed.

(* ===================================================================== *)
(** ** The geometric graph: indices and pairs *)
(* ===================================================================== *)

Lemma in_scope_spec (s : tgStructure) (i : Z) :
  in_scope s i = true <-> (0 <= i < Z.of_nat (length (s_nodes s)))%Z.
Proof. unfold in_scope. rewrite andb_true_iff, Z.leb_le, Z.ltb_lt. tauto. Qed.

Lemma addNode_index (x y z : double) (s : tgStructure) :
  snd (addNode x y z s) = length (s_nodes s) /\
  s_nodes (fst (addNode x y z s)) = s_nodes s ++ [mkNode (mkVec x y z) []] /\
  s_pairs (fst (addNode x y z s)) = s_pairs s.
Proof. destruct s as [ns ps cs]; cbn. auto. Qed.

(** C8. In a scope that owns [n] nodes, whose indices [0 .. n-1] were
    handed out by [addNode] in insertion order, [addPair i j tags] fails
    with [InvalidIndex] whenever [i] or [j] lies outside [0 .. n-1], and
    otherwise succeeds and records the pair with its tags behind the pairs
    already there, leaving nodes and children as they were. *)
Theorem addPair_checks_both_indices (s : tgStructure) (i j : Z)
  (tags : list string) :
  let n := Z.of_nat (length (s_nodes s)) in
  (forall x y z, snd (addNode x y z s) = length (s_nodes s)) /\
  ((i < 0 \/ n <= i \/ j < 0 \/ n <= j)%Z ->
     addPair i j tags s = inl (InvalidIndex i j)) /\
  ((0 <= i < n)%Z -> (0 <= j < n)%Z ->
     addPair i j tags s =
       inr (Structure (s_nodes s)
                      (s_pairs s ++ [mkPair (Z.to_nat i) (Z.to_nat j) tags])
                      (s_children s))).
Proof.
  intros n. split; [intros; apply addNode_index|]. split.
  - intros Hout. unfold addPair.
    destruct (in_scope s i) eqn:Hi; [|reflexivity].
    destruct (in_scope s j) eqn:Hj; [|reflexivity].
    apply in_scope_spec in Hi. apply in_scope_spec in Hj. subst n. lia.
  - intros Hi Hj. unfold addPair.
    apply in_scope_spec in Hi. apply in_scope_spec in Hj.
    rewrite Hi, Hj. destruct s; reflexivity.
Qed.

(** Graphs made with [addNode], [addPair], [addChild] and [move] are
    well formed. *)
Lemma wellFormed_empty : wellFormed emptyStructure = true.
Proof. reflexivity. Qed.

Lemma pairInScope_grow (ns : list Node) (n : Node) (p : Pair) :
  pairInScope ns p = true -> pairInScope (ns ++ [n]) p = true.
Proof.
  unfold pairInScope. rewrite !andb_true_iff, !Nat.ltb_lt, length_app. cbn. lia.
Qed.

Lemma wellFormed_addNode (x y z : double) (s : tgStructure) :
  wellFormed s = true -> wellFormed (fst (addNode x y z s)) = true.
Proof.
  destruct s as [ns ps cs]. cbn. rewrite !andb_true_iff. intros [Hps Hcs].
  split; [|exact Hcs]. rewrite forallb_forall in Hps |- *.
  intros p Hp. apply pairInScope_grow, Hps, Hp.
Qed.

Lemma wellFormed_addPair (i j : Z) (tags : list string) (s s' : tgStructure) :
  wellFormed s = true -> addPair i j tags s = inr s' -> wellFormed s' = true.
Proof.
  unfold addPair. destruct (in_scope s i) eqn:Hi; [|discriminate].
  destruct (in_scope s j) eqn:Hj; [|discriminate].
  apply in_scope_spec in Hi. apply in_scope_spec in Hj.
  destruct s as [ns ps cs]. cbn [s_nodes] in Hi, Hj. intros Hwf [= <-].
  cbn [wellFormed] in *. apply andb_true_iff in Hwf as [Hps Hcs].
  rewrite forallb_app, Hps, Hcs. cbn [forallb andb]. rewrite !andb_true_r.
  unfold pairInScope. cbn [p_from p_to].
  apply andb_true_iff. split; apply Nat.ltb_lt; lia.
Qed.

Lemma wellFormed_addChild (c s : tgStructure) :
  wellFormed s = true -> wellFormed c = true -> wellFormed (addChild c s) = true.
Proof.
  destruct s as [ns ps cs]. cbn. rewrite !andb_true_iff. intros [Hps Hcs] Hc.
  split; [exact Hps|]. rewrite forallb_app, Hcs. cbn. rewrite Hc. reflexivity.
Qed.

Lemma wellFormed_move (v : btVector3) (s : tgStructure) :
  wellFormed (move v s) = wellFormed s.
Proof.
  induction s as [ns ps cs IH] using tgStructure_tree_ind. cbn [move wellFormed].
  f_equal.
  - induction ps as [|p ps IHps]; [reflexivity|]. cbn [forallb].
    rewrite IHps. unfold pairInScope. rewrite length_map. reflexivity.
  - induction IH as [|c cs Hc _ IHcs]; [reflexivity|].
    cbn. rewrite Hc, IHcs. reflexivity.
Qed.

(** The calls of [addRods] and [addMuscles] all stay within the fourteen
    nodes of [addNodes], whatever the tags are. *)
Lemma UpperLimb_structure_builds (tagsOf : string -> list string) :
  exists s, UpperLimbModel.structure tagsOf = inr s /\
            length (s_nodes s) = 14 /\ length (s_pairs s) = 29 /\
            s_children s = [] /\ wellFormed s = true.
Proof. eexists. split; [reflexivity|]. cbn. auto. Qed.

(** C8 at the structure of [UpperLimbModel]: with its fourteen nodes, a pair
    on nodes 4 and 8 is recorded, and a pair that names node 14 or node -1
    is refused. *)
Lemma addPair_checks_both_indices_witness :
  let s := UpperLimbModel.addNodes emptyStructure in
  length (s_nodes s) = 14 /\
  addPair 4 8 ["muscle"] s =
    inr (Structure (s_nodes s) [mkPair 4 8 ["muscle"]] []) /\
  addPair 14 0 ["muscle"] s = inl (InvalidIndex 14 0) /\
  addPair 3 (-1) ["muscle"] s = inl (InvalidIndex 3 (-1)).
Proof.
  intros s.
  pose proof (addPair_checks_both_indices s 4 8 ["muscle"]) as (_ & _ & Hin).
  pose proof (addPair_checks_both_indices s 14 0 ["muscle"]) as (_ & Hout1 & _).
  pose proof (addPair_checks_both_indices s 3 (-1) ["muscle"]) as (_ & Hout2 & _).
  split; [reflexivity|]. split; [|split].
  - rewrite Hin; [reflexivity | cbn; lia | cbn; lia].
  - apply Hout1. cbn. lia.
  - apply Hout2. cbn. lia.
Defined.

(* ===================================================================== *)
(** ** The geometric graph: rigid moves *)
(* ===================================================================== *)

Lemma resolveNodes_move (spec : gmap string tgBuilder) (v : btVector3)
  (ns : list Node) :
  resolveNodes spec (map (moveNode v) ns)
  = map (moveEntity v) (resolveNodes spec ns).
Proof.
  unfold resolveNodes. induction ns as [|n ns IH]; [reflexivity|].
  cbn [map concat]. rewrite IH, map_app. f_equal.
  unfold resolveNode. cbn. destruct (nodeBuilder spec (n_tags n)); reflexivity.
Qed.

Lemma buildPair_move (b : tgPairInfo) (v a c : btVector3) (tags : list string) :
  buildPair b (vadd a v) (vadd c v) tags = moveEntity v (buildPair b a c tags).
Proof. destruct b; reflexivity. Qed.

Lemma resolvePair_move (spec : gmap string tgBuilder) (v : btVector3)
  (ns : list Node) (k : nat) (p : Pair) :
  resolvePair spec (map (moveNode v) ns) k p
  = mapResult (moveEntity v) (resolvePair spec ns k p).
Proof.
  unfold resolvePair. destruct (pairBuilder spec (p_tags p)); [|reflexivity].
  rewrite !list_lookup_fmap.
  destruct (ns !! p_from p) as [a|]; [|reflexivity].
  destruct (ns !! p_to p) as [c|]; [|reflexivity].
  cbn. rewrite buildPair_move. reflexivity.
Qed.

Lemma resolvePairs_move (spec : gmap string tgBuilder) (v : btVector3)
  (ns : list Node) (ps : list Pair) (k : nat) :
  resolvePairs spec (map (moveNode v) ns) k ps
  = mapResult (map (moveEntity v)) (resolvePairs spec ns k ps).
Proof.
  revert k. induction ps as [|p ps IH]; intros k; [reflexivity|].
  cbn [resolvePairs]. rewrite resolvePair_move.
  destruct (resolvePair spec ns k p); [reflexivity|]. cbn.
  rewrite IH. destruct (resolvePairs spec ns (S k) ps); reflexivity.
Qed.

Lemma resolveGraph_move (spec : gmap string tgBuilder) (v : btVector3)
  (s : tgStructure) :
  resolveGraph spec (move v s) = mapResult (moveResolved v) (resolveGraph spec s).
Proof.
  induction s as [ns ps cs IH] using tgStructure_tree_ind.
  cbn [move resolveGraph]. rewrite resolveNodes_move, resolvePairs_move.
  destruct (resolvePairs spec ns 0 ps) as [e|links]; [reflexivity|].
  cbn [mapResult].
  assert (mapE (resolveGraph spec) (map (move v) cs)
          = mapResult (map (moveResolved v)) (mapE (resolveGraph spec) cs)) as ->.
  { induction IH as [|c cs Hc _ IHcs]; [reflexivity|].
    cbn [map mapE]. rewrite Hc.
    destruct (resolveGraph spec c); [reflexivity|]. cbn [mapResult].
    rewrite IHcs. destruct (mapE (resolveGraph spec) cs); reflexivity. }
  destruct (mapE (resolveGraph spec) cs); [reflexivity|].
  cbn. rewrite map_app. reflexivity.
Qed.

Lemma scopes_move (v : btVector3) (s : tgStructure) :
  scopes (move v s) = map (move v) (scopes s).
Proof.
  induction s as [ns ps cs IH] using tgStructure_tree_ind.
  cbn [move scopes s_children map]. f_equal.
  induction IH as [|c cs Hc _ IHcs]; [reflexivity|].
  cbn [map concat]. rewrite Hc, IHcs, map_app. reflexivity.
Qed.

Lemma allEntities_move (v : btVector3) (r : Resolved) :
  allEntities (moveResolved v r) = map (moveEntity v) (allEntities r).
Proof.
  induction r as [es kids IH] using Resolved_tree_ind.
  cbn [moveResolved allEntities]. rewrite map_app. f_equal.
  induction IH as [|k kids Hk _ IHkids]; [reflexivity|].
  cbn [map concat]. rewrite Hk, IHkids, map_app. reflexivity.
Qed.

(** C6. [move v] changes the coordinates at the time of the call: every
    scope of the moved graph, the graph's own and each descendant's, holds
    the nodes it held with [v] added to their position, and a node added
    afterwards keeps the coordinates it was given.  Resolving the moved
    graph gives what resolving the unmoved graph gives, with [v] added (in
    binary64 arithmetic) to every position of every entity; the entities
    created in the world are shifted alike, and a resolution that fails,
    fails with the same error. *)
Theorem move_shifts_graph_and_entities (spec : gmap string tgBuilder)
  (v : btVector3) (s : tgStructure) :
  map s_nodes (scopes (move v s))
    = map (fun scope => map (moveNode v) (s_nodes scope)) (scopes s) /\
  (forall x y z,
     s_nodes (fst (addNode x y z (move v s)))
       = map (moveNode v) (s_nodes s) ++ [mkNode (mkVec x y z) []]) /\
  resolveGraph spec (move v s)
    = mapResult (moveResolved v) (resolveGraph spec s) /\
  (forall r, resolveGraph spec s = inr r ->
     exists r', resolveGraph spec (move v s) = inr r' /\
                allEntities r' = map (moveEntity v) (allEntities r)).
Proof.
  split; [|split; [|split]].
  - rewrite scopes_move, map_map. apply map_ext. intros [ns ps cs]. reflexivity.
  - intros x y z. destruct s as [ns ps cs]. reflexivity.
  - apply resolveGraph_move.
  - intros r Hr. exists (moveResolved v r). split.
    + rewrite resolveGraph_move, Hr. reflexivity.
    + apply allEntities_move.
Qed.

(** C6 on the graph of one rod, moved by the offset of
    [UpperLimbModel::setup]: the rod resolves to the entity of the unmoved
    graph with 50 added to the height of both ends. *)
Lemma move_shifts_graph_and_entities_witness :
  let s := Structure [mkNode (mkVec 0 0 0) []; mkNode (mkVec 0 10 0) []]
                     [mkPair 0 1 ["rod"]] [] in
  resolveGraph rodSpec s = inr (ResolvedScope [stubRod] []) /\
  resolveGraph rodSpec (move UpperLimbModel.offset s)
  = inr (ResolvedScope
           [RodEntity UpperLimbModel.boneConfig (mkVec 0 50 0) (mkVec 0 60 0)
                      ["rod"]] []).
Proof.
  intros s. split; [reflexivity|].
  destruct (move_shifts_graph_and_entities rodSpec UpperLimbModel.offset s)
    as (_ & _ & Hres & _).
  rewrite Hres. reflexivity.
Defined.

(** The move of [UpperLimbModel::setup]: the origin node ends up at height
    50 and the first bone, were it resolved alone, spans (0,50,0) to
    (-8.5,58.5,0). *)
Lemma UpperLimb_moved_out_of_ground :
  exists s, UpperLimbModel.structure oneTag = inr s /\
            n_pos <$> s_nodes s !! 0%nat = Some (mkVec 0 50 0) /\
            n_pos <$> s_nodes s !! 1%nat = Some (mkVec (-8.5) 58.5 0).
Proof. eexists. split; [reflexivity|]. split; reflexivity. Qed.

(* ===================================================================== *)
(** ** Resolution: an unresolvable pair aborts the whole graph *)
(* ===================================================================== *)

Lemma pairBuilder_unregistered (spec : gmap string tgBuilder) (p : Pair) :
  unregistered spec p -> pairBuilder spec (p_tags p) = None.
Proof.
  unfold unregistered. induction 1 as [|t ts Ht _ IH]; [reflexivity|].
  cbn. rewrite Ht. exact IH.
Qed.

Lemma resolvePairs_inl (spec : gmap string tgBuilder) (ns : list Node)
  (ps : list Pair) (k : nat) (e : exn) :
  forallb (pairInScope ns) ps = true ->
  resolvePairs spec ns k ps = inl e ->
  exists i q, ps !! i = Some q /\ e = UnresolvedTag (k + i) (p_tags q) /\
              pairBuilder spec (p_tags q) = None.
Proof.
  revert k. induction ps as [|p ps IH]; intros k Hwf Hres; [discriminate|].
  cbn in Hwf. apply andb_true_iff in Hwf as [Hp Hps].
  cbn [resolvePairs] in Hres.
  destruct (resolvePair spec ns k p) as [e0|ent] eqn:Hpair.
  - injection Hres as <-. unfold resolvePair in Hpair.
    destruct (pairBuilder spec (p_tags p)) eqn:Hb.
    + unfold pairInScope in Hp. apply andb_true_iff in Hp as [Hf Ht].
      apply Nat.ltb_lt in Hf, Ht.
      destruct (lookup_lt_is_Some_2 ns _ Hf) as [a Ha].
      destruct (lookup_lt_is_Some_2 ns _ Ht) as [c Hc].
      rewrite Ha, Hc in Hpair. discriminate.
    + injection Hpair as <-. exists 0%nat, p.
      rewrite Nat.add_0_r. auto.
  - destruct (resolvePairs spec ns (S k) ps) as [e1|ents] eqn:Hrest;
      [|discriminate].
    injection Hres as <-.
    destruct (IH _ Hps Hrest) as (i & q & Hq & -> & Hnone).
    exists (S i), q. rewrite Nat.add_succ_r. auto.
Qed.

Lemma resolvePairs_inr (spec : gmap string tgBuilder) (ns : list Node)
  (ps : list Pair) (k : nat) (ents : list Entity) :
  resolvePairs spec ns k ps = inr ents ->
  Forall (fun p => pairBuilder spec (p_tags p) <> None) ps.
Proof.
  revert k ents. induction ps as [|p ps IH]; intros k ents Hres; [constructor|].
  cbn [resolvePairs] in Hres.
  destruct (resolvePair spec ns k p) as [e0|ent] eqn:Hpair; [discriminate|].
  destruct (resolvePairs spec ns (S k) ps) as [e1|rest] eqn:Hrest;
    [discriminate|].
  constructor; [|eapply IH; exact Hrest].
  unfold resolvePair in Hpair.
  destruct (pairBuilder spec (p_tags p)); [discriminate | discriminate].
Qed.

Lemma mapE_inl {A B} (f : A -> exn + B) (xs : list A) (e : exn) :
  mapE f xs = inl e -> exists x, In x xs /\ f x = inl e.
Proof.
  induction xs as [|x xs IH]; [discriminate|]. cbn.
  destruct (f x) as [e0|y] eqn:Hx.
  - intros [= <-]. exists x. auto.
  - destruct (mapE f xs) as [e1|ys]; [|discriminate].
    intros [= <-]. destruct (IH eq_refl) as (x' & Hin & Hx'). eauto.
Qed.

Lemma mapE_inr {A B} (f : A -> exn + B) (xs : list A) (ys : list B) :
  mapE f xs = inr ys -> forall x, In x xs -> exists y, f x = inr y.
Proof.
  revert ys. induction xs as [|x xs IH]; intros ys; [intros _ ? []|]. cbn.
  destruct (f x) as [e0|y] eqn:Hx; [discriminate|].
  destruct (mapE f xs) as [e1|ys']; [discriminate|].
  intros _ x' [<-|Hin]; [eauto | eapply IH; eauto].
Qed.

Lemma scopes_child (s c scope : tgStructure) :
  In c (s_children s) -> In scope (scopes c) -> In scope (scopes s).
Proof.
  intros Hc Hscope. destruct s as [ns ps cs]. cbn [scopes s_children] in *.
  right. apply in_concat. exists (scopes c). split; [|exact Hscope].
  apply in_map. exact Hc.
Qed.

Lemma wellFormed_child (s c : tgStructure) :
  wellFormed s = true -> In c (s_children s) -> wellFormed c = true.
Proof.
  destruct s as [ns ps cs]. cbn. intros Hwf Hc.
  apply andb_true_iff in Hwf as [_ Hcs].
  rewrite forallb_forall in Hcs. auto.
Qed.

(** On a well-formed graph the resolver can fail in one way only: on a
    pair that no pair builder resolves, which the error names. *)
Lemma resolveGraph_inl (spec : gmap string tgBuilder) (s : tgStructure) (e : exn) :
  wellFormed s = true ->
  resolveGraph spec s = inl e ->
  exists idx tags, e = UnresolvedTag idx tags /\ offendingPair spec s idx tags.
Proof.
  revert e. induction s as [ns ps cs IH] using tgStructure_tree_ind.
  intros e Hwf Hres. pose proof Hwf as Hwf0.
  cbn in Hwf. apply andb_true_iff in Hwf as [Hps _].
  cbn [resolveGraph] in Hres.
  destruct (resolvePairs spec ns 0 ps) as [e0|links] eqn:Hpairs.
  - injection Hres as <-.
    destruct (resolvePairs_inl _ _ _ _ _ Hps Hpairs) as (i & q & Hq & -> & Hnone).
    exists i, (p_tags q). split; [reflexivity|].
    exists (Structure ns ps cs), q. cbn. auto.
  - destruct (mapE (resolveGraph spec) cs) as [e1|kids] eqn:Hkids; [|discriminate].
    injection Hres as <-.
    destruct (mapE_inl _ _ _ Hkids) as (c & Hin & Hc).
    rewrite Forall_forall in IH.
    destruct (IH c (proj2 (list_elem_of_In _ _) Hin) e1
                 (wellFormed_child _ _ Hwf0 Hin) Hc)
      as (idx & tags & -> & scope & q & Hscope & Hq & Htags & Hnone).
    exists idx, tags. split; [reflexivity|].
    exists scope, q. split; [|auto].
    eapply scopes_child; [exact Hin | exact Hscope].
Qed.

(** A resolution that succeeds found a pair builder for every pair of
    every scope. *)
Lemma resolveGraph_inr (spec : gmap string tgBuilder) (s : tgStructure)
  (r : Resolved) :
  resolveGraph spec s = inr r ->
  forall scope p, In scope (scopes s) -> In p (s_pairs scope) ->
                  pairBuilder spec (p_tags p) <> None.
Proof.
  revert r. induction s as [ns ps cs IH] using tgStructure_tree_ind.
  intros r Hres scope p Hscope Hp.
  cbn [resolveGraph] in Hres.
  destruct (resolvePairs spec ns 0 ps) as [e0|links] eqn:Hpairs; [discriminate|].
  destruct (mapE (resolveGraph spec) cs) as [e1|kids] eqn:Hkids; [discriminate|].
  cbn [scopes s_children] in Hscope. destruct Hscope as [<-|Hscope].
  - apply resolvePairs_inr in Hpairs. rewrite Forall_forall in Hpairs.
    apply Hpairs. apply list_elem_of_In. exact Hp.
  - apply in_concat in Hscope as (l & Hl & Hscope).
    apply in_map_iff in Hl as (c & <- & Hc).
    destruct (mapE_inr _ _ _ Hkids c Hc) as [k Hk].
    rewrite Forall_forall in IH.
    exact (IH c (proj2 (list_elem_of_In _ _) Hc) k Hk scope p Hscope Hp).
Qed.

(** C1. If some pair of a graph (in any of its scopes) carries no tag that
    is registered in the registry, resolving the graph fails with
    [UnresolvedTag idx tags], where [idx] and [tags] are the index and the
    tags of a pair of the graph that no builder resolves.  Nothing is
    built: [buildInto] hands back the model and the world it was given, so
    no entity is created in the world and the model owns nothing new, and
    a [setup] that builds this graph stops there with the same error,
    before any observer is notified.  The graph is one that [addPair]
    can have produced: its pairs refer to nodes of their scope. *)
Theorem unresolved_tag_aborts_resolution {St} (spec : gmap string tgBuilder)
  (s : tgStructure) (m : tgModel St) (w : World St) :
  wellFormed s = true ->
  (exists scope p, In scope (scopes s) /\ In p (s_pairs scope) /\
                   unregistered spec p) ->
  exists idx tags,
    offendingPair spec s idx tags /\
    resolveGraph spec s = inl (UnresolvedTag idx tags) /\
    buildInto s spec m w = (inl (UnresolvedTag idx tags), m, w) /\
    setup (inr s) spec m w = (inl (UnresolvedTag idx tags), m, w).
Proof.
  intros Hwf (scope & p & Hscope & Hp & Hunreg).
  destruct (resolveGraph spec s) as [e|r] eqn:Hres.
  - destruct (resolveGraph_inl spec s e Hwf Hres) as (idx & tags & -> & Hoff).
    exists idx, tags. split; [exact Hoff|]. split; [reflexivity|].
    assert (buildInto s spec m w = (inl (UnresolvedTag idx tags), m, w)) as Hb.
    { unfold buildInto. rewrite Hres. reflexivity. }
    split; [exact Hb|]. unfold setup. rewrite Hb. reflexivity.
  - exfalso. apply (resolveGraph_inr spec s r Hres scope p Hscope Hp).
    apply pairBuilder_unregistered. exact Hunreg.
Qed.

(** C1 at [UpperLimbModel]: with the strings of [addRods] and [addMuscles]
    read as white-space separated tags, the pair on nodes 4 and 8 carries
    the tags "right", "anocneus" and "muscle", none of which is among the
    six registered keys, and [UpperLimbModel::setup] stops with
    [UnresolvedTag], the model and the world being as before. *)
Lemma unresolved_tag_aborts_resolution_witness :
  let m := attach (recorder "controller") (Model [] [] [] [] Unbuilt) in
  let w := mkWorld [] 0%nat in
  exists idx tags,
    UpperLimbModel.setup spacedTags m w = (inl (UnresolvedTag idx tags), m, w).
Proof.
  intros m w.
  destruct (UpperLimbModel.structure spacedTags) as [e|s] eqn:Hs;
    [vm_compute in Hs; discriminate|].
  assert (wellFormed s = true) as Hwf.
  { vm_compute in Hs. injection Hs as <-. vm_compute. reflexivity. }
  assert (exists scope p, In scope (scopes s) /\ In p (s_pairs scope) /\
                          unregistered UpperLimbModel.spec p) as Hbad.
  { exists s, (mkPair 4 8 ["right"; "anocneus"; "muscle"]).
    split; [destruct s; left; reflexivity|].
    split; [vm_compute in Hs; injection Hs as <-; cbn; tauto|].
    repeat constructor. }
  destruct (unresolved_tag_aborts_resolution UpperLimbModel.spec s m w Hwf Hbad)
    as (idx & tags & _ & _ & _ & Hsetup).
  exists idx, tags. unfold UpperLimbModel.setup. rewrite Hs. exact Hsetup.
Defined.

(** The same with each string read as one tag: the first pair that no
    builder resolves is then the first "humerus massless" rod. *)
Lemma UpperLimb_setup_aborts_oneTag :
  let m := attach (recorder "controller") (Model [] [] [] [] Unbuilt) in
  let w := mkWorld [] 0%nat in
  UpperLimbModel.setup oneTag m w
  = (inl (UnresolvedTag 6 ["humerus massless"]), m, w).
Proof. vm_compute. reflexivity. Qed.

Lemma UpperLimb_setup_aborts_spacedTags :
  let m := attach (recorder "controller") (Model [] [] [] [] Unbuilt) in
  let w := mkWorld [] 0%nat in
  UpperLimbModel.setup spacedTags m w
  = (inl (UnresolvedTag 11 ["olecranon"; "muscle"]), m, w).
Proof. vm_compute. reflexivity. Qed.

(* ===================================================================== *)
(** ** Notification and recursion into children *)
(* ===================================================================== *)

(** Observers that return normally are all called, in list order. *)
Lemma notify_returns {St} (ev : tgObserver St -> Event)
  (call : tgObserver St -> M St unit) (obs : list (tgObserver St)) (w : World St) :
  Forall (fun o => returns_normally (call o)) obs ->
  exists s', forEach (fun o => emit (ev o) ;;; onEntities (call o))%comp obs w
             = (inr tt, mkWorld (w_log w ++ map ev obs) s').
Proof.
  intros Hsafe. revert w.
  induction Hsafe as [|o obs Ho _ IH]; intros w.
  - exists (w_state w). cbn. rewrite app_nil_r. destruct w; reflexivity.
  - cbn [forEach map]. unfold bind at 1. unfold bind at 1. cbn [emit].
    unfold onEntities at 1. cbn [w_state w_log].
    destruct (Ho (w_state w)) as [s1 ->].
    destruct (IH (mkWorld (w_log w ++ [ev o]) s1)) as [s2 ->].
    exists s2. cbn [w_log]. rewrite <- app_assoc. reflexivity.
Qed.

(** A method that succeeds on every child succeeds on the list of
    children, child after child. *)
Lemma eachChild_returns {St} (f : Method St) (g : tgModel St -> tgModel St)
  (tr : tgModel St -> list Event) (cs : list (tgModel St)) :
  Forall (fun c => forall w, exists s',
            f c w = (inr tt, g c, mkWorld (w_log w ++ tr c) s')) cs ->
  forall w, exists s',
    eachChild f cs w
    = (inr tt, map g cs, mkWorld (w_log w ++ concat (map tr cs)) s').
Proof.
  induction 1 as [|c cs Hc _ IH]; intros w.
  - exists (w_state w). cbn. rewrite app_nil_r. destruct w; reflexivity.
  - cbn [eachChild map concat]. destruct (Hc w) as [s1 ->].
    destruct (IH (mkWorld (w_log w ++ tr c) s1)) as [s2 ->].
    exists s2. cbn [w_log]. rewrite <- app_assoc. reflexivity.
Qed.

(** Whatever the callbacks do, the log only grows, and in the expected
    order. *)
Lemma logsPrefix_abort {St} (e1 e2 : list Event) (w w' : World St) (e : exn) :
  logsPrefix e1 w (inl e) w' -> logsPrefix (e1 ++ e2) w (inl e) w'.
Proof.
  intros (evs & Hlog & Hpre & _). exists evs. split; [exact Hlog|].
  split; [apply prefix_app_r; exact Hpre | discriminate].
Qed.

Lemma logsPrefix_then {St} (e1 e2 : list Event) (w w1 w2 : World St)
  (r : exn + unit) :
  logsPrefix e1 w (inr tt) w1 -> logsPrefix e2 w1 r w2 ->
  logsPrefix (e1 ++ e2) w r w2.
Proof.
  intros (evs1 & Hlog1 & _ & Hall1) (evs2 & Hlog2 & Hpre2 & Hall2).
  rewrite (Hall1 eq_refl) in Hlog1. exists (e1 ++ evs2).
  split; [rewrite Hlog2, Hlog1, app_assoc; reflexivity|].
  split; [apply prefix_app; exact Hpre2|].
  intros Hr. rewrite (Hall2 Hr). reflexivity.
Qed.

Lemma notify_cons {St} (ev : tgObserver St -> Event)
  (call : tgObserver St -> M St unit) (o : tgObserver St)
  (obs : list (tgObserver St)) (w : World St) :
  forEach (fun o => emit (ev o) ;;; onEntities (call o))%comp (o :: obs) w
  = match call o (w_state w) with
    | (inl e, s1) => (inl e, mkWorld (w_log w ++ [ev o]) s1)
    | (inr _, s1) =>
        forEach (fun o => emit (ev o) ;;; onEntities (call o))%comp obs
                (mkWorld (w_log w ++ [ev o]) s1)
    end.
Proof.
  cbn [forEach]. unfold bind, emit, onEntities. cbn [w_state w_log].
  destruct (call o (w_state w)) as [[e|[]] s1]; reflexivity.
Qed.

Lemma notify_logs {St} (ev : tgObserver St -> Event)
  (call : tgObserver St -> M St unit) (obs : list (tgObserver St)) (w : World St) :
  match forEach (fun o => emit (ev o) ;;; onEntities (call o))%comp obs w with
  | (r, w') => logsPrefix (map ev obs) w r w'
  end.
Proof.
  revert w. induction obs as [|o obs IH]; intros w.
  - exists []. cbn. rewrite app_nil_r. auto.
  - rewrite notify_cons. cbn [map].
    destruct (call o (w_state w)) as [[e|[]] s1].
    + apply (logsPrefix_abort [ev o] (map ev obs)).
      exists [ev o]. split; [reflexivity|]. split; [reflexivity | discriminate].
    + specialize (IH (mkWorld (w_log w ++ [ev o]) s1)).
      destruct (forEach _ obs _) as [r w'].
      apply (logsPrefix_then [ev o] (map ev obs) w
               (mkWorld (w_log w ++ [ev o]) s1)); [|exact IH].
      exists [ev o]. auto.
Qed.

Lemma eachChild_logs {St} (f : Method St) (tr : tgModel St -> list Event)
  (g : tgModel St -> tgModel St) (cs : list (tgModel St)) :
  Forall (runsWithin f tr g) cs ->
  forall w, match eachChild f cs w with
            | (r, cs', w') => logsPrefix (concat (map tr cs)) w r w' /\
                              (r = inr tt -> cs' = map g cs)
            end.
Proof.
  induction 1 as [|c cs Hc _ IH]; intros w.
  - cbn. split; [|reflexivity]. exists []. rewrite app_nil_r. auto.
  - cbn [eachChild map concat]. specialize (Hc w).
    destruct (f c w) as [[[e|[]] c'] w1]; destruct Hc as [Hlog Hm].
    + split; [|discriminate]. apply logsPrefix_abort. exact Hlog.
    + specialize (IH w1). destruct (eachChild f cs w1) as [[r cs'] w2].
      destruct IH as [Hlogs Hcs]. split.
      * eapply logsPrefix_then; eassumption.
      * intros Hr. rewrite (Hm eq_refl), (Hcs Hr). reflexivity.
Qed.

Lemma Forall_treeObservers {St} (P : tgObserver St * list Entity -> Prop)
  (os : list (tgObserver St)) (ms es : list Entity) (cs : list (tgModel St))
  (l : Lifecycle) :
  Forall P (treeObservers (Model os ms es cs l)) ->
  Forall (fun o => P (o, ms)) os /\
  Forall (fun c => Forall P (treeObservers c)) cs.
Proof.
  cbn [treeObservers m_observers m_children allMuscles].
  intros H. apply Forall_app in H as [Hown Hkids]. split.
  - clear Hkids. induction os as [|o os IH]; [constructor|].
    cbn [map] in Hown. inversion Hown; subst. constructor; auto.
  - clear Hown. induction cs as [|c cs IH]; [constructor|].
    cbn [map concat] in Hkids. apply Forall_app in Hkids as [Hc Hcs].
    constructor; [exact Hc | exact (IH Hcs)].
Qed.

Lemma markAll_children {St} (l : Lifecycle) (m : tgModel St) :
  withChildren (map (markAll l) (m_children m)) l m = markAll l m.
Proof. destruct m; reflexivity. Qed.

Lemma treeObservers_markAll {St} (l : Lifecycle) (m : tgModel St) :
  treeObservers (markAll l m) = treeObservers m.
Proof.
  induction m as [os ms es cs l0 IH] using tgModel_tree_ind.
  cbn [markAll treeObservers m_observers m_children allMuscles]. f_equal.
  induction IH as [|c cs Hc _ IHcs]; [reflexivity|].
  cbn [map concat]. rewrite Hc, IHcs. reflexivity.
Qed.

Lemma stepTrace_markAll {St} (dt : double) (l : Lifecycle) (m : tgModel St) :
  stepTrace dt (markAll l m) = stepTrace dt m.
Proof.
  induction m as [os ms es cs l0 IH] using tgModel_tree_ind.
  cbn [markAll stepTrace m_observers m_children]. f_equal.
  induction IH as [|c cs Hc _ IHcs]; [reflexivity|].
  cbn [map concat]. rewrite Hc, IHcs. reflexivity.
Qed.

Lemma getDescendants_markAll {St} (l : Lifecycle) (m : tgModel St) :
  getDescendants (markAll l m) = getDescendants m.
Proof.
  induction m as [os ms es cs l0 IH] using tgModel_tree_ind.
  cbn [markAll getDescendants m_entities m_children]. f_equal.
  induction IH as [|c cs Hc _ IHcs]; [reflexivity|].
  cbn [map concat]. rewrite Hc, IHcs. reflexivity.
Qed.

(* ===================================================================== *)
(** ** [step] *)
(* ===================================================================== *)

Lemma step_guard {St} (dt : double) (m : tgModel St) (w : World St) :
  (dt <=? 0)%float = true ->
  step dt m w = (inl (InvalidArgument "dt is not positive"), m, w).
Proof. intros Hdt. destruct m. cbn [step]. rewrite Hdt. reflexivity. Qed.

(** A step with an accepted [dt], on a tree whose observers return
    normally: it succeeds, logs the whole tree's notifications in
    notification order, and leaves every object of the tree Stepping. *)
Lemma step_returns {St} (dt : double) (m : tgModel St) :
  (dt <=? 0)%float = false ->
  stepSafe dt m ->
  forall w, exists s',
    step dt m w
    = (inr tt, markAll Stepping m, mkWorld (w_log w ++ stepTrace dt m) s').
Proof.
  intros Hdt. induction m as [os ms es cs l IH] using tgModel_tree_ind.
  intros Hsafe w. apply Forall_treeObservers in Hsafe as [Hown Hkids].
  cbn [step]. rewrite Hdt. unfold notifyStep.
  cbn [m_observers allMuscles m_children m_life].
  destruct (notify_returns (fun o => EvOnStep (obs_name o) dt)
              (fun o => onStep o ms dt) os w Hown) as [s1 ->].
  assert (Forall (fun c => forall w0, exists s',
            step dt c w0 = (inr tt, markAll Stepping c,
                            mkWorld (w_log w0 ++ stepTrace dt c) s')) cs) as Hcs.
  { rewrite Forall_forall in IH, Hkids. apply Forall_forall.
    intros c Hc w0. apply IH; [exact Hc | apply Hkids; exact Hc]. }
  unfold tgModel_step. cbn [m_children].
  destruct (eachChild_returns (step dt) (markAll Stepping) (stepTrace dt) cs Hcs
              (mkWorld (w_log w ++ map (fun o => EvOnStep (obs_name o) dt) os) s1))
    as [s2 ->].
  exists s2. cbn [w_log withChildren markAll stepTrace m_observers m_children].
  rewrite <- app_assoc. reflexivity.
Qed.

(** A step with an accepted [dt], whatever the observers do. *)
Lemma step_logs {St} (dt : double) (m : tgModel St) :
  (dt <=? 0)%float = false ->
  runsWithin (step dt) (stepTrace dt) (markAll Stepping) m.
Proof.
  intros Hdt. induction m as [os ms es cs l IH] using tgModel_tree_ind.
  intros w. cbn [step]. rewrite Hdt. unfold notifyStep.
  cbn [m_observers allMuscles].
  pose proof (notify_logs (fun o => EvOnStep (obs_name o) dt)
                (fun o => onStep o ms dt) os w) as Hnotify.
  destruct (forEach _ os w) as [[e|[]] w1].
  - split; [|discriminate]. apply logsPrefix_abort. exact Hnotify.
  - unfold tgModel_step. cbn [m_children m_life].
    pose proof (eachChild_logs (step dt) (stepTrace dt) (markAll Stepping) cs IH w1)
      as Hkids.
    destruct (eachChild (step dt) cs w1) as [[[e|[]] cs'] w2];
      destruct Hkids as [Hlogs Hcs].
    + split; [|discriminate]. eapply logsPrefix_then; eassumption.
    + split; [eapply logsPrefix_then; eassumption|].
      intros _. rewrite (Hcs eq_refl). reflexivity.
Qed.

Lemma T6_onStep_guard {T} `{LinearString T}
  (this : T6RestLengthController.T6RestLengthController)
  (subject : T6RestLengthController.T6Model) (dt : double) (heap : gmap nat T) :
  (dt <=? 0)%float = true ->
  T6RestLengthController.onStep this subject dt heap
  = (inl (InvalidArgument "dt is not positive"), heap).
Proof.
  intros Hdt. unfold T6RestLengthController.onStep. rewrite Hdt. reflexivity.
Qed.

(** C2. A [step(dt)] with [dt <= 0] throws [InvalidArgument] and returns
    the model and the world exactly as they were given: nothing is logged
    (no observer is notified), the entity state is untouched, no child has
    moved on in its lifecycle and the object's own lifecycle state is the
    one it had.  The controller's [onStep] rejects such a [dt] in the same
    way and leaves the muscles untouched.  The object can be stepped
    again: from what the failed call left behind, a [step] with [dt' > 0]
    returns normally, provided the observers of the tree do, and leaves the
    tree Stepping. *)
Theorem step_rejects_nonpositive_dt {St} (dt : double) (m : tgModel St)
  (w : World St) :
  (dt <=? 0)%float = true ->
  match step dt m w with
  | (r, m1, w1) =>
      r = inl (InvalidArgument "dt is not positive") /\ m1 = m /\ w1 = w /\
      (forall dt', (0 <? dt')%float = true -> stepSafe dt' m ->
         exists s', step dt' m1 w1
                    = (inr tt, markAll Stepping m,
                       mkWorld (w_log w ++ stepTrace dt' m) s'))
  end /\
  (forall T (LS : LinearString T) this subject (heap : gmap nat T),
     T6RestLengthController.onStep this subject dt heap
     = (inl (InvalidArgument "dt is not positive"), heap)).
Proof.
  intros Hdt. split.
  - rewrite (step_guard dt m w Hdt). repeat split.
    intros dt' Hpos Hsafe.
    apply step_returns; [apply double_pos_not_nonpos; exact Hpos | exact Hsafe].
  - intros T LS this subject heap. apply T6_onStep_guard. exact Hdt.
Qed.

Lemma stubModel_stepSafe (dt : double) : stepSafe dt stubModel.
Proof. repeat constructor; intros n; eexists; reflexivity. Qed.

(** C2 on a model with two observers and a child: a step by -0.5 is
    refused and changes nothing, and the step by 1/2000 that follows
    succeeds. *)
Lemma step_rejects_nonpositive_dt_witness :
  step (-0.5) stubModel (mkWorld [] 0%nat)
  = (inl (InvalidArgument "dt is not positive"), stubModel, mkWorld [] 0%nat) /\
  exists s', step HardwareTest.stepSize stubModel (mkWorld [] 0%nat)
             = (inr tt, markAll Stepping stubModel,
                mkWorld (stepTrace HardwareTest.stepSize stubModel) s').
Proof.
  pose proof (step_rejects_nonpositive_dt (-0.5) stubModel (mkWorld [] 0%nat)
                eq_refl) as [Hstep _].
  destruct (step (-0.5) stubModel (mkWorld [] 0%nat)) as [[r m1] w1].
  destruct Hstep as (-> & -> & -> & Hnext).
  split; [reflexivity|].
  exact (Hnext HardwareTest.stepSize eq_refl
               (stubModel_stepSafe HardwareTest.stepSize)).
Defined.

(** C4. A [step(dt)] with [dt > 0].  Whatever the observers do, the log
    grows by an initial part of the sequence made of the object's own
    [onStep] notifications, in attachment order, followed by the logs of
    the children's steps, in order, and by the whole of it when the call
    returns normally: no child is stepped before the last observer of the
    object has been notified.  When the observers of the tree return
    normally, [notifyStep] calls the object's own observers and returns,
    the children are then stepped from the world the last observer left,
    and the call returns normally. *)
Theorem step_notifies_observers_then_children {St} (dt : double)
  (m : tgModel St) (w : World St) :
  (0 <? dt)%float = true ->
  match step dt m w with
  | (r, m', w') =>
      logsPrefix (map (fun o => EvOnStep (obs_name o) dt) (m_observers m)
                  ++ concat (map (stepTrace dt) (m_children m))) w r w'
  end /\
  (stepSafe dt m ->
   exists w1 w2,
     notifyStep dt m w = (inr tt, w1) /\
     w_log w1 = w_log w ++ map (fun o => EvOnStep (obs_name o) dt) (m_observers m) /\
     eachChild (step dt) (m_children m) w1
       = (inr tt, map (markAll Stepping) (m_children m), w2) /\
     w_log w2 = w_log w1 ++ concat (map (stepTrace dt) (m_children m)) /\
     step dt m w = (inr tt, markAll Stepping m, w2)).
Proof.
  intros Hpos. apply double_pos_not_nonpos in Hpos. split.
  { pose proof (step_logs dt m Hpos w) as Hlogs.
    destruct (step dt m w) as [[r m'] w']. destruct m. apply Hlogs. }
  intros Hsafe. destruct m as [os ms es cs l].
  apply Forall_treeObservers in Hsafe as [Hown Hkids].
  destruct (notify_returns (fun o => EvOnStep (obs_name o) dt)
              (fun o => onStep o ms dt) os w Hown) as [s1 Hnotify].
  assert (Forall (fun c => forall w0, exists s',
            step dt c w0 = (inr tt, markAll Stepping c,
                            mkWorld (w_log w0 ++ stepTrace dt c) s')) cs) as Hcs.
  { rewrite Forall_forall in Hkids. apply Forall_forall.
    intros c Hc w0. apply step_returns; [exact Hpos | apply Hkids; exact Hc]. }
  destruct (eachChild_returns (step dt) (markAll Stepping) (stepTrace dt) cs Hcs
              (mkWorld (w_log w ++ map (fun o => EvOnStep (obs_name o) dt) os) s1))
    as [s2 Hchildren].
  eexists _, _. cbn [m_observers m_children].
  split; [exact Hnotify|]. split; [reflexivity|].
  split; [exact Hchildren|]. split; [reflexivity|].
  cbn [step]. rewrite Hpos. unfold notifyStep, tgModel_step.
  cbn [m_observers allMuscles m_children]. rewrite Hnotify, Hchildren.
  reflexivity.
Qed.

(** C4 on the stub model: the two observers of the model are called, in
    the order in which they were attached, before the observer of its
    child. *)
Lemma step_notifies_observers_then_children_witness :
  let dt := HardwareTest.stepSize in
  step dt stubModel (mkWorld [] 0%nat)
  = (inr tt, markAll Stepping stubModel,
     mkWorld [EvOnStep "first" dt; EvOnStep "second" dt; EvOnStep "inner" dt]
             3%nat).
Proof.
  intros dt.
  destruct (step_notifies_observers_then_children dt stubModel
              (mkWorld [] 0%nat) eq_refl) as [_ Hall].
  destruct (Hall (stubModel_stepSafe dt)) as (w1 & w2 & _ & _ & _ & _ & Hstep).
  rewrite Hstep. vm_compute in Hstep.
  injection Hstep as <-. reflexivity.
Defined.

(* ===================================================================== *)
(** ** [setup] *)
(* ===================================================================== *)

Lemma treeObservers_modelOfResolved {St} (r : Resolved) :
  treeObservers (@modelOfResolved St r) = [].
Proof.
  induction r as [es kids IH] using Resolved_tree_ind.
  cbn [modelOfResolved treeObservers m_observers m_children map app].
  induction IH as [|k kids Hk _ IHkids]; [reflexivity|].
  cbn [map concat]. rewrite Hk, IHkids. reflexivity.
Qed.

Lemma setupTrace_modelOfResolved {St} (r : Resolved) :
  setupTrace (@modelOfResolved St r) = [].
Proof.
  induction r as [es kids IH] using Resolved_tree_ind.
  cbn [modelOfResolved setupTrace m_observers m_children map app].
  induction IH as [|k kids Hk _ IHkids]; [reflexivity|].
  cbn [map concat]. rewrite Hk, IHkids. reflexivity.
Qed.

(** The setup of a child: its observers, then its own children. *)
Lemma tgModel_setup_returns {St} (m : tgModel St) :
  Forall setupSafe (m_children m) ->
  forall w, exists s',
    tgModel_setup m w
    = (inr tt, markAll SetUp m,
       mkWorld (w_log w ++ concat (map setupTrace (m_children m))) s').
Proof.
  induction m as [os ms es cs l IH] using tgModel_tree_ind.
  cbn [m_children]. intros Hsafe w. cbn [tgModel_setup m_children m_life].
  set (child := fun (c : tgModel St) (w0 : World St) =>
                  match notifySetup c w0 with
                  | (inl e, w1) => (inl e, c, w1)
                  | (inr _, w1) => tgModel_setup c w1
                  end).
  assert (Forall (fun c => forall w0, exists s',
            child c w0 = (inr tt, markAll SetUp c,
                          mkWorld (w_log w0 ++ setupTrace c) s')) cs) as Hcs.
  { rewrite Forall_forall in IH, Hsafe. apply Forall_forall.
    intros c Hc w0. specialize (IH c Hc). specialize (Hsafe c Hc).
    destruct c as [os' ms' es' cs' l'].
    apply Forall_treeObservers in Hsafe as [Hown Hkids].
    subst child. cbn beta. unfold notifySetup.
    cbn [m_observers allMuscles].
    destruct (notify_returns (fun o => EvOnSetup (obs_name o))
                (fun o => onSetup o ms') os' w0) as [s1 ->].
    { eapply Forall_impl; [exact Hown|]. intros o Ho. apply Ho. }
    destruct (IH Hkids
                (mkWorld (w_log w0 ++ map (fun o => EvOnSetup (obs_name o)) os') s1))
      as [s2 ->].
    exists s2. cbn [w_log setupTrace m_observers m_children].
    rewrite <- app_assoc. reflexivity. }
  destruct (eachChild_returns child (markAll SetUp) setupTrace cs Hcs w)
    as [s2 ->].
  exists s2. reflexivity.
Qed.

Lemma setupTrace_built {St} (kids : list Resolved) :
  concat (map setupTrace (map (@modelOfResolved St) kids)) = [].
Proof.
  induction kids as [|k kids IH]; [reflexivity|].
  cbn [map concat]. rewrite setupTrace_modelOfResolved, IH. reflexivity.
Qed.

Lemma tgModel_setup_logs {St} (m : tgModel St) (w : World St) :
  match tgModel_setup m w with
  | (r, m', w') =>
      logsPrefix (concat (map setupTrace (m_children m))) w r w' /\
      (r = inr tt -> m' = markAll SetUp m)
  end.
Proof.
  revert w. induction m as [os ms es cs l IH] using tgModel_tree_ind.
  intros w. cbn [tgModel_setup m_children m_life].
  set (child := fun (c : tgModel St) (w0 : World St) =>
                  match notifySetup c w0 with
                  | (inl e, w1) => (inl e, c, w1)
                  | (inr _, w1) => tgModel_setup c w1
                  end).
  assert (Forall (runsWithin child setupTrace (markAll SetUp)) cs) as Hcs.
  { eapply Forall_impl; [exact IH|]. intros c Hc w0. subst child. cbn beta.
    destruct c as [os' ms' es' cs' l']. unfold notifySetup.
    cbn [m_observers allMuscles m_children setupTrace] in *.
    pose proof (notify_logs (fun o => EvOnSetup (obs_name o))
                  (fun o => onSetup o ms') os' w0) as Hnotify.
    destruct (forEach _ os' w0) as [[e|[]] w1].
    - split; [|discriminate]. apply logsPrefix_abort. exact Hnotify.
    - specialize (Hc w1).
      destruct (tgModel_setup (Model os' ms' es' cs' l') w1) as [[r m'] w2].
      destruct Hc as [Hlogs Hm]. split; [|exact Hm].
      eapply logsPrefix_then; eassumption. }
  pose proof (eachChild_logs child setupTrace (markAll SetUp) cs Hcs w) as Hkids.
  destruct (eachChild child cs w) as [[[e|[]] cs'] w2]; destruct Hkids as [Hlogs Hcs'].
  - split; [exact Hlogs | discriminate].
  - split; [exact Hlogs|]. intros _. rewrite (Hcs' eq_refl). reflexivity.
Qed.

Lemma setup_logs {St} (s : tgStructure) (spec : gmap string tgBuilder)
  (m : tgModel St) (w : World St) :
  match setup (inr s) spec m w with
  | (r, m', w') =>
      match resolveGraph spec s with
      | inl e => r = inl e /\ m' = m /\ w' = w
      | inr rs =>
          logsPrefix (map EvCreate (allEntities rs)
                      ++ map (fun o => EvOnSetup (obs_name o)) (m_observers m)
                      ++ concat (map setupTrace (m_children m))) w r w'
      end
  end.
Proof.
  unfold setup, buildInto. destruct (resolveGraph spec s) as [e|[es kids]]; [auto|].
  destruct m as [os ms es0 cs0 l]. cbv zeta. unfold notifySetup.
  cbn [withMuscles m_observers allMuscles m_children].
  set (w1 := mkWorld (w_log w ++ map EvCreate (allEntities (ResolvedScope es kids)))
                     (w_state w)).
  set (ms' := filter _ _).
  pose proof (notify_logs (fun o => EvOnSetup (obs_name o))
                (fun o => onSetup o ms') os w1) as Hnotify.
  assert (logsPrefix (map EvCreate (allEntities (ResolvedScope es kids))) w
                     (inr tt) w1) as Hbuild.
  { eexists. split; [reflexivity|]. split; [reflexivity | auto]. }
  destruct (forEach _ os w1) as [[e|[]] w2].
  - eapply logsPrefix_then; [exact Hbuild|]. apply logsPrefix_abort. exact Hnotify.
  - pose proof (tgModel_setup_logs
                  (Model os ms' (es0 ++ es) (cs0 ++ map modelOfResolved kids) l) w2)
      as Hbase.
    destruct (tgModel_setup _ w2) as [[r m'] w3]. destruct Hbase as [Hlogs _].
    cbn [m_children] in Hlogs.
    rewrite map_app, concat_app, setupTrace_built, app_nil_r in Hlogs.
    eapply logsPrefix_then; [exact Hbuild|].
    eapply logsPrefix_then; eassumption.
Qed.

(** C3. [setup].  Whatever the observers do, the log grows by an initial
    part of the sequence made of the creation of every entity of the
    resolved graph, then one [onSetup] per attached observer, in
    attachment order, then the setup of the children already owned, and by
    the whole of it when the call returns normally: no observer is
    notified before the entities are built and registered, and none is
    notified twice.  When the structure does not resolve, nothing is
    logged.  When it resolves and the observers of the tree return
    normally, [buildInto] creates the entities and hands the object its
    entities and children, [notifySetup] then calls each attached observer
    once, in attachment order, and the call returns normally and leaves
    the object Set Up with the observers it had. *)
Theorem setup_notifies_after_build {St} (s : tgStructure)
  (spec : gmap string tgBuilder) (m : tgModel St) (w : World St) :
  match setup (inr s) spec m w with
  | (r, m', w') =>
      match resolveGraph spec s with
      | inl e => r = inl e /\ m' = m /\ w' = w
      | inr rs =>
          logsPrefix (map EvCreate (allEntities rs)
                      ++ map (fun o => EvOnSetup (obs_name o)) (m_observers m)
                      ++ concat (map setupTrace (m_children m))) w r w'
      end
  end /\
  (forall r, resolveGraph spec s = inr r -> setupSafe m ->
   exists m1 w1 m2 w2 m' w',
     buildInto s spec m w = (inr tt, m1, w1) /\
     w_log w1 = w_log w ++ map EvCreate (allEntities r) /\
     m2 = withMuscles (filter (fun e => isActuator e = true) (getDescendants m1)) m1 /\
     notifySetup m2 w1 = (inr tt, w2) /\
     w_log w2 = w_log w1 ++ map (fun o => EvOnSetup (obs_name o)) (m_observers m) /\
     setup (inr s) spec m w = (inr tt, m', w') /\
     w_log w' = w_log w2 ++ concat (map setupTrace (m_children m)) /\
     m_life m' = SetUp /\ m_observers m' = m_observers m /\
     getDescendants m' = getDescendants m1).
Proof.
  split; [apply setup_logs|].
  intros r Hres Hsafe. destruct m as [os ms es0 cs0 l]. destruct r as [es kids].
  apply Forall_treeObservers in Hsafe as [Hown Hkids].
  set (m1 := Model os ms (es0 ++ es) (cs0 ++ map modelOfResolved kids) l).
  set (w1 := mkWorld (w_log w ++ map EvCreate (allEntities (ResolvedScope es kids)))
                     (w_state w)).
  assert (buildInto s spec (Model os ms es0 cs0 l) w = (inr tt, m1, w1)) as Hbuild.
  { unfold buildInto. rewrite Hres. reflexivity. }
  set (m2 := withMuscles (filter (fun e => isActuator e = true) (getDescendants m1)) m1).
  destruct (notify_returns (fun o => EvOnSetup (obs_name o))
              (fun o => onSetup o (allMuscles m2)) os w1) as [s2 Hnotify].
  { eapply Forall_impl; [exact Hown|]. intros o Ho. apply Ho. }
  assert (Forall setupSafe (m_children m2)) as Hkids2.
  { cbn [m2 m1 withMuscles m_children]. apply Forall_app. split; [exact Hkids|].
    apply Forall_forall. intros c Hc. apply list_elem_of_In in Hc.
    apply in_map_iff in Hc as (k & <- & _).
    unfold setupSafe. rewrite treeObservers_modelOfResolved. constructor. }
  destruct (tgModel_setup_returns m2 Hkids2
              (mkWorld (w_log w1 ++ map (fun o => EvOnSetup (obs_name o)) os) s2))
    as [s3 Hbase].
  exists m1, w1, m2, (mkWorld (w_log w1 ++ map (fun o => EvOnSetup (obs_name o)) os) s2).
  eexists _, _.
  split; [exact Hbuild|]. split; [reflexivity|]. split; [reflexivity|].
  split; [exact Hnotify|]. split; [reflexivity|].
  split.
  { unfold setup. rewrite Hbuild. fold m2. unfold notifySetup in Hnotify |- *.
    cbn [m2 m1 withMuscles m_observers] in Hnotify |- *.
    rewrite Hnotify. exact Hbase. }
  split.
  { cbn [w_log m2 m1 withMuscles m_children]. f_equal.
    rewrite map_app, concat_app.
    rewrite setupTrace_built, app_nil_r. reflexivity. }
  split; [reflexivity|]. split; [reflexivity|].
  rewrite getDescendants_markAll. reflexivity.
Qed.

Lemma freshModel_setupSafe : setupSafe freshModel.
Proof. repeat constructor; intros subject n; eexists; reflexivity. Qed.

(** C3 on a model with two observers attached before setup, for the graph
    of one rod: the rod is created in the world, then "first" and then
    "second" are notified, once each. *)
Lemma setup_notifies_after_build_witness :
  setup rodStructure rodSpec freshModel (mkWorld [] 0%nat)
  = (inr tt,
     Model [recorder "first"; recorder "second"] [] [stubRod] [] SetUp,
     mkWorld [EvCreate stubRod; EvOnSetup "first"; EvOnSetup "second"] 2%nat).
Proof.
  destruct (setup_notifies_after_build
              (Structure [mkNode (mkVec 0 0 0) []; mkNode (mkVec 0 10 0) []]
                         [mkPair 0 1 ["rod"]] [])
              rodSpec freshModel (mkWorld [] 0%nat)) as [_ Hall].
  destruct (Hall (ResolvedScope [stubRod] []) eq_refl freshModel_setupSafe)
    as (m1 & w1 & m2 & w2 & m' & w' & _ & _ & _ & _ & _ & Hsetup & _).
  change rodStructure
    with (@inr exn _ (Structure [mkNode (mkVec 0 0 0) []; mkNode (mkVec 0 10 0) []]
                                [mkPair 0 1 ["rod"]] [])).
  rewrite Hsetup. vm_compute in Hsetup. injection Hsetup as <- <-. reflexivity.
Defined.

(* ===================================================================== *)
(** ** [teardown] *)
(* ===================================================================== *)

Lemma teardown_returns {St} (m : tgModel St) :
  teardownSafe m ->
  forall w, exists s',
    teardown m w = (inr tt, tornDown m, mkWorld (w_log w ++ teardownTrace m) s').
Proof.
  induction m as [os ms es cs l IH] using tgModel_tree_ind.
  intros Hsafe w. apply Forall_treeObservers in Hsafe as [Hown Hkids].
  cbn [teardown]. unfold notifyTeardown. cbn [m_observers allMuscles].
  destruct (notify_returns (fun o => EvOnTeardown (obs_name o))
              (fun o => onTeardown o ms) os w Hown) as [s1 ->].
  unfold tgModel_teardown. cbn [m_children].
  assert (Forall (fun c => forall w0, exists s',
            teardown c w0 = (inr tt, tornDown c,
                             mkWorld (w_log w0 ++ teardownTrace c) s')) cs) as Hcs.
  { rewrite Forall_forall in IH, Hkids. apply Forall_forall.
    intros c Hc w0. apply IH; [exact Hc | apply Hkids; exact Hc]. }
  destruct (eachChild_returns teardown tornDown teardownTrace cs Hcs
              (mkWorld (w_log w ++ map (fun o => EvOnTeardown (obs_name o)) os) s1))
    as [s2 ->].
  exists s2. unfold releaseAll, emitAll, tornDown.
  cbn [w_log w_state m_entities m_observers allMuscles teardownTrace m_children].
  rewrite <- !app_assoc. reflexivity.
Qed.







(* ===================================================================== *)
(** ** [run] *)
(* ===================================================================== *)

Lemma countEvents_app (p : Event -> bool) (xs ys : list Event) :
  countEvents p (xs ++ ys) = countEvents p xs + countEvents p ys.
Proof. induction xs as [|x xs IH]; cbn; [reflexivity | rewrite IH; lia]. Qed.

Lemma countEvents_stepTrace {St} (dt : double) (m : tgModel St) :
  countEvents isIntegrate (stepTrace dt m) = 0.
Proof.
  induction m as [os ms es cs l IH] using tgModel_tree_ind.
  cbn [stepTrace m_observers m_children]. rewrite countEvents_app.
  assert (countEvents isIntegrate (map (fun o => EvOnStep (obs_name o) dt) os) = 0)
    as ->.
  { induction os as [|o os IHos]; [reflexivity | exact IHos]. }
  induction IH as [|c cs Hc _ IHcs]; [reflexivity|].
  cbn [map concat]. rewrite countEvents_app, Hc. exact IHcs.
Qed.

Lemma countEvents_incrementTrace {St} (sim : tgSimulation St)
  (models : list (tgModel St)) :
  countEvents isIntegrate (incrementTrace sim models) = 1.
Proof.
  unfold incrementTrace. rewrite countEvents_app.
  assert (countEvents isIntegrate
            (concat (map (stepTrace (sim_stepSize sim)) models)) = 0) as ->.
  { induction models as [|m ms IH]; [reflexivity|].
    cbn [map concat]. rewrite countEvents_app, countEvents_stepTrace. exact IH. }
  destruct (sim_visit sim); reflexivity.
Qed.

Lemma incrementTrace_markAll {St} (sim : tgSimulation St) (l : Lifecycle)
  (models : list (tgModel St)) :
  incrementTrace sim (map (markAll l) models) = incrementTrace sim models.
Proof.
  unfold incrementTrace. f_equal. f_equal. rewrite map_map.
  apply map_ext. intros m. apply stepTrace_markAll.
Qed.

Lemma markAll_idempotent {St} (l : Lifecycle) (m : tgModel St) :
  markAll l (markAll l m) = markAll l m.
Proof.
  induction m as [os ms es cs l0 IH] using tgModel_tree_ind.
  cbn [markAll]. f_equal. rewrite map_map.
  induction IH as [|c cs Hc _ IHcs]; [reflexivity|].
  cbn [map]. rewrite Hc, IHcs. reflexivity.
Qed.

(** One increment: all [onStep] calls of all models, then the engine, then
    the visitors. *)
Lemma runIncrement_returns {St} (sim : tgSimulation St) (models : list (tgModel St)) :
  (sim_stepSize sim <=? 0)%float = false ->
  Forall (stepSafe (sim_stepSize sim)) models ->
  forall w, exists s1,
    eachChild (step (sim_stepSize sim)) models w
      = (inr tt, map (markAll Stepping) models,
         mkWorld (w_log w ++ concat (map (stepTrace (sim_stepSize sim)) models)) s1) /\
    runIncrement sim models w
      = (inr tt, map (markAll Stepping) models,
         mkWorld (w_log w ++ incrementTrace sim models)
                 (sim_engine sim (sim_stepSize sim) s1)).
Proof.
  intros Hdt Hsafe w.
  assert (Forall (fun c => forall w0, exists s',
            step (sim_stepSize sim) c w0
            = (inr tt, markAll Stepping c,
               mkWorld (w_log w0 ++ stepTrace (sim_stepSize sim) c) s')) models)
    as Hms.
  { eapply Forall_impl; [exact Hsafe|]. intros m Hm w0.
    apply step_returns; assumption. }
  destruct (eachChild_returns _ _ _ models Hms w) as [s1 Hstep].
  exists s1. split; [exact Hstep|].
  unfold runIncrement. rewrite Hstep.
  unfold bind, worldStep, visit, incrementTrace.
  cbn [w_log w_state]. destruct (sim_visit sim); cbn [emit ret w_log w_state].
  - rewrite <- !app_assoc. reflexivity.
  - rewrite app_nil_r, <- !app_assoc. reflexivity.
Qed.

Lemma runLoop_returns {St} (sim : tgSimulation St) (n : nat) :
  (sim_stepSize sim <=? 0)%float = false ->
  forall (models : list (tgModel St)),
  Forall (stepSafe (sim_stepSize sim)) models ->
  forall w, exists s',
    runLoop sim n models w
    = (inr tt, Nat.iter n (map (markAll Stepping)) models,
       mkWorld (w_log w ++ concat (replicate n (incrementTrace sim models))) s').
Proof.
  intros Hdt. induction n as [|n IH]; intros models Hsafe w.
  - exists (w_state w). cbn. rewrite app_nil_r. destruct w; reflexivity.
  - cbn [runLoop].
    destruct (runIncrement_returns sim models Hdt Hsafe w) as (s1 & _ & ->).
    assert (Forall (stepSafe (sim_stepSize sim)) (map (markAll Stepping) models))
      as Hsafe'.
    { apply Forall_forall. intros m' Hm'. apply list_elem_of_In in Hm'.
      apply in_map_iff in Hm' as (m & <- & Hm).
      unfold stepSafe. rewrite treeObservers_markAll.
      rewrite Forall_forall in Hsafe. apply Hsafe, list_elem_of_In, Hm. }
    destruct (IH _ Hsafe' (mkWorld (w_log w ++ incrementTrace sim models)
                                   (sim_engine sim (sim_stepSize sim) s1)))
      as [s2 ->].
    exists s2. rewrite incrementTrace_markAll. cbn [w_log replicate concat].
    rewrite <- app_assoc. f_equal. f_equal.
    symmetry. apply Nat.iter_succ_r.
Qed.

Lemma runIncrement_logs {St} (sim : tgSimulation St) (models : list (tgModel St))
  (w : World St) :
  (sim_stepSize sim <=? 0)%float = false ->
  match runIncrement sim models w with
  | (r, ms, w') => logsPrefix (incrementTrace sim models) w r w' /\
                   (r = inr tt -> ms = map (markAll Stepping) models)
  end.
Proof.
  intros Hdt. unfold runIncrement, incrementTrace.
  assert (Forall (runsWithin (step (sim_stepSize sim)) (stepTrace (sim_stepSize sim))
                             (markAll Stepping)) models) as Hms.
  { apply Forall_forall. intros m _. apply step_logs. exact Hdt. }
  pose proof (eachChild_logs _ _ _ models Hms w) as Hstep.
  destruct (eachChild _ models w) as [[[e|[]] ms] w1]; destruct Hstep as [Hlogs Hcs].
  - split; [|discriminate]. apply logsPrefix_abort. exact Hlogs.
  - unfold bind, worldStep, visit.
    destruct (sim_visit sim); cbn [emit ret w_log w_state].
    + split; [|intros _; apply Hcs; reflexivity].
      eapply logsPrefix_then; [exact Hlogs|].
      eexists. split; [rewrite <- app_assoc; reflexivity|].
      split; [reflexivity | auto].
    + split; [|intros _; apply Hcs; reflexivity].
      eapply logsPrefix_then; [exact Hlogs|].
      eexists. split; [reflexivity|]. split; [reflexivity | auto].
Qed.

Lemma runLoop_logs {St} (sim : tgSimulation St) (n : nat)
  (models : list (tgModel St)) (w : World St) :
  (sim_stepSize sim <=? 0)%float = false ->
  match runLoop sim n models w with
  | (r, ms, w') =>
      logsPrefix (concat (replicate n (incrementTrace sim models))) w r w'
  end.
Proof.
  intros Hdt. revert models w. induction n as [|n IH]; intros models w.
  - cbn. exists []. rewrite app_nil_r. auto.
  - cbn [runLoop replicate concat].
    pose proof (runIncrement_logs sim models w Hdt) as Hone.
    destruct (runIncrement sim models w) as [[[e|[]] ms] w1];
      destruct Hone as [Hlogs Hms].
    + apply logsPrefix_abort. exact Hlogs.
    + rewrite (Hms eq_refl). specialize (IH (map (markAll Stepping) models) w1).
      destruct (runLoop sim n _ w1) as [[r ms'] w2].
      rewrite incrementTrace_markAll in IH.
      eapply logsPrefix_then; eassumption.
Qed.

(** C5. [run(steps)] with [steps >= 1] and a positive step size.
    Whatever the observers do, the log grows by an initial part of [steps]
    copies of one increment's log, in which every [onStep] of every model
    of the tree comes before the engine's integration of that increment,
    which comes before the visitors, and by all of it when the call
    returns normally: no observer is called while the engine integrates,
    and an increment is complete before the next begins.  When the
    observers return normally, each increment steps the models from the
    state the previous integration left and the engine then integrates
    the state the last observer left; the call returns normally after
    exactly [steps] increments, the engine having integrated exactly
    [steps] times. *)
Theorem run_is_lockstep {St} (sim : tgSimulation St) (steps : Z)
  (models : list (tgModel St)) (w : World St) :
  (1 <= steps)%Z ->
  (0 <? sim_stepSize sim)%float = true ->
  match run sim steps models w with
  | (r, ms, w') =>
      logsPrefix (concat (replicate (Z.to_nat steps) (incrementTrace sim models)))
                 w r w'
  end /\
  (Forall (stepSafe (sim_stepSize sim)) models ->
   (exists s1,
      eachChild (step (sim_stepSize sim)) models w
        = (inr tt, map (markAll Stepping) models,
           mkWorld (w_log w ++ concat (map (stepTrace (sim_stepSize sim)) models)) s1) /\
      runIncrement sim models w
        = (inr tt, map (markAll Stepping) models,
           mkWorld (w_log w ++ incrementTrace sim models)
                   (sim_engine sim (sim_stepSize sim) s1))) /\
   (exists s',
      run sim steps models w
      = (inr tt, map (markAll Stepping) models,
         mkWorld (w_log w
                  ++ concat (replicate (Z.to_nat steps) (incrementTrace sim models)))
                 s'))) /\
  countEvents isIntegrate
    (concat (replicate (Z.to_nat steps) (incrementTrace sim models)))
  = Z.to_nat steps.
Proof.
  intros Hsteps Hpos. apply double_pos_not_nonpos in Hpos.
  split; [apply runLoop_logs; exact Hpos|]. split.
  - intros Hsafe. split; [apply runIncrement_returns; assumption|]. unfold run.
    destruct (runLoop_returns sim (Z.to_nat steps) Hpos models Hsafe w) as [s' ->].
    exists s'. f_equal. f_equal.
    destruct (Z.to_nat steps) as [|n] eqn:Hn; [lia|]. clear.
    induction n as [|n IHn]; [reflexivity|].
    rewrite Nat.iter_succ, IHn, map_map.
    apply map_ext. intros m. apply markAll_idempotent.
  - induction (Z.to_nat steps) as [|n IHn]; [reflexivity|].
    cbn [replicate concat]. rewrite countEvents_app, countEvents_incrementTrace, IHn.
    reflexivity.
Qed.

(** C5 on the stub model, two increments of 1/2000 with an engine that adds
    100 to the entity state at each integration: in each increment the
    three observers are called, then the engine integrates. *)
Lemma run_is_lockstep_witness :
  let dt := HardwareTest.stepSize in
  let sim := mkSimulation dt false (fun _ n => n + 100)%nat in
  run sim 2 [stubModel] (mkWorld [] 0%nat)
  = (inr tt, [markAll Stepping stubModel],
     mkWorld [EvOnStep "first" dt; EvOnStep "second" dt; EvOnStep "inner" dt;
              EvIntegrate dt;
              EvOnStep "first" dt; EvOnStep "second" dt; EvOnStep "inner" dt;
              EvIntegrate dt]
             206%nat).
Proof.
  intros dt sim.
  assert (Forall (stepSafe (sim_stepSize sim)) [stubModel]) as Hsafe.
  { repeat constructor; intros n; eexists; reflexivity. }
  destruct (run_is_lockstep sim 2 [stubModel] (mkWorld [] 0%nat)
              ltac:(discriminate) eq_refl) as (_ & Hall & _).
  destruct (Hall Hsafe) as (_ & s' & Hrun).
  rewrite Hrun. vm_compute in Hrun. injection Hrun as <-. reflexivity.
Defined.

(* ===================================================================== *)
(** ** The ICRA2015 hardware test *)
(* ===================================================================== *)

Lemma markAll_Model {St} (l : Lifecycle) (os : list (tgObserver St))
  (ms es : list Entity) (cs : list (tgModel St)) (l0 : Lifecycle) :
  markAll l (Model os ms es cs l0) = Model os ms es (map (markAll l) cs) l.
Proof. reflexivity. Qed.

Lemma stepTrace_Model {St} (dt : double) (os : list (tgObserver St))
  (ms es : list Entity) (cs : list (tgModel St)) (l : Lifecycle) :
  stepTrace dt (Model os ms es cs l)
  = map (fun o => EvOnStep (obs_name o) dt) os ++ concat (map (stepTrace dt) cs).
Proof. reflexivity. Qed.

Lemma treeObservers_Model {St} (os : list (tgObserver St)) (ms es : list Entity)
  (cs : list (tgModel St)) (l : Lifecycle) :
  treeObservers (Model os ms es cs l)
  = map (fun o => (o, ms)) os ++ concat (map treeObservers cs).
Proof. reflexivity. Qed.

Lemma treeObservers_built {St} (kids : list Resolved) :
  concat (map treeObservers (map (@modelOfResolved St) kids)) = [].
Proof.
  induction kids as [|k kids IH]; [reflexivity|].
  cbn [map concat]. rewrite treeObservers_modelOfResolved, IH. reflexivity.
Qed.

Lemma stepTrace_built {St} (dt : double) (l : Lifecycle) (kids : list Resolved) :
  concat (map (stepTrace dt) (map (markAll l) (map (@modelOfResolved St) kids)))
  = [].
Proof.
  induction kids as [|k kids IH]; [reflexivity|]. cbn [map concat].
  rewrite IH, app_nil_r, stepTrace_markAll. clear IH.
  induction k as [es ks IHk] using Resolved_tree_ind.
  cbn [modelOfResolved]. rewrite stepTrace_Model. cbn [map app].
  induction IHk as [|k ks Hk _ IHks]; [reflexivity|].
  cbn [map concat]. rewrite Hk, IHks. reflexivity.
Qed.

(** X10. The test, for a model class whose [setup] builds a structure
    that resolves and a controller whose callbacks return normally: the
    entities are created, the controller is set up once, and each of the
    120000 increments calls the controller and then integrates. *)
Lemma ICRA2015Static_log {St} (engine : double -> St -> St) (s : tgStructure)
  (spec : gmap string tgBuilder) (r : Resolved) (myControl : tgObserver St)
  (w : World St) :
  resolveGraph spec s = inr r ->
  (forall subject, returns_normally (onSetup myControl subject)) ->
  (forall subject, returns_normally
                     (onStep myControl subject HardwareTest.stepSize)) ->
  exists models s',
    HardwareTest.ICRA2015Static engine (setup (inr s) spec)
                                (Model [] [] [] [] Unbuilt) myControl w
    = (inr tt, models,
       mkWorld (w_log w
                ++ (map EvCreate (allEntities r)
                    ++ [EvOnSetup (obs_name myControl)])
                ++ concat (replicate (Z.to_nat 120000)
                             [EvOnStep (obs_name myControl) HardwareTest.stepSize;
                              EvIntegrate HardwareTest.stepSize]))
               s').
Proof.
  intros Hres Hsetup Hstep. destruct r as [es kids].
  unfold HardwareTest.ICRA2015Static, addModel, attach. cbn [app].
  unfold setup, buildInto. rewrite Hres. cbv zeta. unfold notifySetup.
  cbn [withMuscles m_observers allMuscles app].
  set (muscles := filter _ _).
  set (w1 := mkWorld _ (w_state w)).
  destruct (notify_returns (fun o => EvOnSetup (obs_name o))
              (fun o => onSetup o muscles) [myControl] w1) as [s2 ->].
  { constructor; [apply Hsetup | constructor]. }
  set (m2 := Model [myControl] muscles es (map modelOfResolved kids) Unbuilt).
  destruct (tgModel_setup_returns m2) with
    (w := mkWorld (w_log w1 ++ map (fun o => EvOnSetup (obs_name o)) [myControl]) s2)
    as [s3 ->].
  { cbn [m2 m_children]. apply Forall_forall. intros c Hc.
    apply list_elem_of_In in Hc. apply in_map_iff in Hc as (k & <- & _).
    unfold setupSafe. rewrite treeObservers_modelOfResolved. constructor. }
  cbn [m2 m_children w_log w1 map]. rewrite setupTrace_built, app_nil_r.
  unfold run.
  set (sim := mkSimulation HardwareTest.stepSize false engine).
  set (m3 := markAll SetUp _).
  destruct (runLoop_returns sim (Z.to_nat 120000) eq_refl [m3]) with
    (w := mkWorld ((w_log w ++ map EvCreate (allEntities (ResolvedScope es kids)))
                   ++ [EvOnSetup (obs_name myControl)]) s3) as [s4 ->].
  { constructor; [|constructor]. unfold stepSafe, m3.
    rewrite treeObservers_markAll. unfold m2.
    rewrite treeObservers_Model, treeObservers_built, app_nil_r.
    constructor; [apply Hstep | constructor]. }
  eexists _, s4. f_equal. cbn [w_log]. f_equal. rewrite <- !app_assoc.
  do 3 f_equal.
  unfold incrementTrace, sim. cbn [sim_stepSize sim_visit map concat].
  rewrite app_nil_r. unfold m3, m2.
  rewrite markAll_Model, stepTrace_Model, stepTrace_built. reflexivity.
Qed.

(* ===================================================================== *)
(** ** [T6RestLengthController] *)
(* ===================================================================== *)

(** C9. The constructor throws [std::invalid_argument] for every
    [restLengthDiff < 0.0], so that no controller is constructed, and for
    every [restLengthDiff >= 0.0] it succeeds with a controller whose
    [m_restLengthDiff] is the argument, unchanged. *)
Theorem constructor_rejects_negative_diff (restLengthDiff : double) :
  ((restLengthDiff <? 0)%float = true ->
     T6RestLengthController.new restLengthDiff
     = inl (InvalidArgument "You tried to push a rope!")) /\
  ((0 <=? restLengthDiff)%float = true ->
     exists this,
       T6RestLengthController.new restLengthDiff = inr this /\
       T6RestLengthController.m_restLengthDiff this = restLengthDiff).
Proof.
  unfold T6RestLengthController.new. split.
  - intros ->. reflexivity.
  - intros Hge. rewrite (double_nonneg_not_neg _ Hge). eexists. split; reflexivity.
Qed.

(** C9 at -0.1, at 0 and at 2.5. *)
Lemma constructor_rejects_negative_diff_witness :
  T6RestLengthController.new (-0.1)
    = inl (InvalidArgument "You tried to push a rope!") /\
  T6RestLengthController.new 0 = inr (T6RestLengthController.mkController 0) /\
  T6RestLengthController.new 2.5 = inr (T6RestLengthController.mkController 2.5).
Proof.
  split; [exact (proj1 (constructor_rejects_negative_diff (-0.1)) eq_refl)|].
  split.
  - destruct (proj2 (constructor_rejects_negative_diff 0) eq_refl)
      as (this & Hnew & Hdiff).
    rewrite Hnew. destruct this. cbn in Hdiff. rewrite Hdiff. reflexivity.
  - destruct (proj2 (constructor_rejects_negative_diff 2.5) eq_refl)
      as (this & Hnew & Hdiff).
    rewrite Hnew. destruct this. cbn in Hdiff. rewrite Hdiff. reflexivity.
Defined.

Section RestLength.

Context {T : Type} `{LinearString T}.

Implicit Types (heap : gmap nat T) (muscles : list nat).

(** The loop of [onStep]: it reads each muscle and writes nothing. *)
Lemma onStep_loop_keeps_heap (diff : double) muscles heap :
  snd (forEach (fun pMuscle =>
                  muscle <~ T6RestLengthController.deref pMuscle ;;
                  let desiredRestLength := (getStartLength muscle - diff)%float in
                  ret tt)%comp muscles heap) = heap.
Proof.
  induction muscles as [|p ps IH]; [reflexivity|].
  cbn [forEach]. unfold bind at 1. unfold bind at 1.
  unfold T6RestLengthController.deref at 1.
  destruct (heap !! p); [cbn; exact IH | reflexivity].
Qed.

Lemma onStep_loop_returns (diff : double) muscles heap :
  Forall (fun p => is_Some (heap !! p)) muscles ->
  forEach (fun pMuscle =>
             muscle <~ T6RestLengthController.deref pMuscle ;;
             let desiredRestLength := (getStartLength muscle - diff)%float in
             ret tt)%comp muscles heap = (inr tt, heap).
Proof.
  induction 1 as [|p ps [m Hp] _ IH]; [reflexivity|].
  cbn [forEach]. unfold bind at 1. unfold bind at 1.
  unfold T6RestLengthController.deref at 1. rewrite Hp. cbn. exact IH.
Qed.

(** The loop of [onSetup]: one update per entry of the vector, in order. *)
Lemma onSetup_loop (this : T6RestLengthController.T6RestLengthController)
  (subject : T6RestLengthController.T6Model) heap :
  Forall (fun p => is_Some (heap !! p))
         (T6RestLengthController.getAllMuscles subject) ->
  T6RestLengthController.onSetup this subject heap
  = (inr tt,
     foldl (fun h p => alter (retarget (T6RestLengthController.m_restLengthDiff this)) p h)
           heap (T6RestLengthController.getAllMuscles subject)).
Proof.
  unfold T6RestLengthController.onSetup.
  generalize (T6RestLengthController.getAllMuscles subject). intros muscles.
  revert heap. induction muscles as [|p ps IH]; intros heap Hlive; [reflexivity|].
  inversion Hlive as [|? ? [m Hp] Hrest]; subst.
  cbn [forEach foldl]. unfold bind at 1. unfold bind at 1.
  unfold T6RestLengthController.deref at 1. rewrite Hp.
  unfold T6RestLengthController.store at 1.
  assert (<[p := setRestLengthSingleStep
                   (getStartLength m - T6RestLengthController.m_restLengthDiff this)%float
                   m]> heap
          = alter (retarget (T6RestLengthController.m_restLengthDiff this)) p heap)
    as ->.
  { apply map_eq. intros q. rewrite lookup_insert, lookup_alter.
    destruct (decide (p = q)); [rewrite Hp; reflexivity | reflexivity]. }
  apply IH. eapply Forall_impl; [exact Hrest|].
  intros q Hq. apply lookup_alter_is_Some. exact Hq.
Qed.

Lemma lookup_retarget_other (diff : double) muscles heap (p : nat) :
  p ∉ muscles ->
  foldl (fun h q => alter (retarget diff) q h) heap muscles !! p = heap !! p.
Proof.
  revert heap. induction muscles as [|q qs IH]; intros heap Hp; [reflexivity|].
  apply not_elem_of_cons in Hp as [Hne Hp]. cbn [foldl].
  rewrite IH by exact Hp. apply lookup_alter_ne. congruence.
Qed.

Lemma lookup_retarget_once (diff : double) muscles heap (p : nat) :
  NoDup muscles -> p ∈ muscles ->
  foldl (fun h q => alter (retarget diff) q h) heap muscles !! p
  = retarget diff <$> heap !! p.
Proof.
  revert heap. induction muscles as [|q qs IH]; intros heap Hnd Hp.
  - apply elem_of_nil in Hp. contradiction.
  - apply NoDup_cons in Hnd as [Hq Hnd]. cbn [foldl].
    apply elem_of_cons in Hp as [->|Hp].
    + rewrite lookup_retarget_other by exact Hq. apply lookup_alter_eq.
    + rewrite IH by assumption. rewrite lookup_alter_ne; [reflexivity|].
      intros ->. contradiction.
Qed.

End RestLength.

(** C10. [onStep], for any subject, any heap of muscles and any [dt],
    leaves every muscle exactly as it was, whether it returns or throws;
    for [dt > 0] and a vector without null pointers it returns normally:
    it reads the muscles and sets nothing.  [onSetup], on a vector without
    null pointers, returns normally after one
    [setRestLengthSingleStep(getStartLength() - m_restLengthDiff)] per
    entry of [getAllMuscles()], in order; when the vector names each
    muscle once, every muscle it names has received exactly that one
    update and every other muscle is untouched. *)
Theorem rest_length_set_in_onSetup_only {T} `{LinearString T}
  (this : T6RestLengthController.T6RestLengthController)
  (subject : T6RestLengthController.T6Model) (heap : gmap nat T) :
  let muscles := T6RestLengthController.getAllMuscles subject in
  let diff := T6RestLengthController.m_restLengthDiff this in
  (forall dt, snd (T6RestLengthController.onStep this subject dt heap) = heap) /\
  (forall dt, (0 <? dt)%float = true ->
     Forall (fun p => is_Some (heap !! p)) muscles ->
     T6RestLengthController.onStep this subject dt heap = (inr tt, heap)) /\
  (Forall (fun p => is_Some (heap !! p)) muscles ->
     T6RestLengthController.onSetup this subject heap
     = (inr tt, foldl (fun h p => alter (retarget diff) p h) heap muscles)) /\
  (Forall (fun p => is_Some (heap !! p)) muscles -> NoDup muscles ->
     exists heap',
       T6RestLengthController.onSetup this subject heap = (inr tt, heap') /\
       (forall p, p ∈ muscles -> heap' !! p = retarget diff <$> heap !! p) /\
       (forall p, p ∉ muscles -> heap' !! p = heap !! p)).
Proof.
  intros muscles diff. split; [|split; [|split]].
  - intros dt. unfold T6RestLengthController.onStep.
    destruct (dt <=? 0)%float; [reflexivity|].
    apply (onStep_loop_keeps_heap diff).
  - intros dt Hpos Hlive. unfold T6RestLengthController.onStep.
    rewrite (double_pos_not_nonpos dt Hpos).
    apply (onStep_loop_returns diff). exact Hlive.
  - apply onSetup_loop.
  - intros Hlive Hnd. eexists. split; [apply onSetup_loop; exact Hlive|]. split.
    + intros p Hp. apply lookup_retarget_once; assumption.
    + intros p Hp. apply lookup_retarget_other; assumption.
Qed.

(** C10 on two muscles of start length 10 and 12 with a difference of 2.5:
    [onSetup] requests 7.5 and 9.5, and a later [onStep] changes nothing. *)
Lemma rest_length_set_in_onSetup_only_witness :
  let this := T6RestLengthController.mkController 2.5 in
  let subject := T6RestLengthController.mkT6Model [1; 2]%nat in
  let heap : gmap nat StubString :=
    <[1%nat := mkStubString 10 10]> (<[2%nat := mkStubString 12 12]> ∅) in
  exists heap',
    T6RestLengthController.onSetup this subject heap = (inr tt, heap') /\
    heap' !! 1%nat = Some (mkStubString 10 7.5) /\
    heap' !! 2%nat = Some (mkStubString 12 9.5) /\
    T6RestLengthController.onStep this subject HardwareTest.stepSize heap'
    = (inr tt, heap').
Proof.
  intros this subject heap.
  assert (Forall (fun p => is_Some (heap !! p))
                 (T6RestLengthController.getAllMuscles subject)) as Hlive.
  { repeat constructor; eexists; reflexivity. }
  destruct (rest_length_set_in_onSetup_only this subject heap)
    as (_ & _ & Hsetup & _).
  eexists. split; [exact (Hsetup Hlive)|].
  split; [reflexivity|]. split; [reflexivity|].
  vm_compute. reflexivity.
Defined.

(* ===================================================================== *)
(** ** Doubles that are not numbers *)
(* ===================================================================== *)

Lemma SFcompare_refl (f : spec_float) :
  f <> S754_nan -> SFcompare f f = Some Eq.
Proof.
  destruct f as [s|s| |s m e]; try (destruct s; reflexivity); [congruence|].
  intros _. cbn. destruct s; rewrite Z.compare_refl, Pos.compare_cont_refl;
    reflexivity.
Qed.

Lemma is_nan_spec (x : double) : is_nan x = true <-> Prim2SF x = S754_nan.
Proof.
  unfold is_nan. rewrite FloatAxioms.eqb_spec. unfold SFeqb. split.
  - intros Hnan. destruct (Prim2SF x) as [s|s| |s m e] eqn:Hx; [| |reflexivity|];
      rewrite SFcompare_refl in Hnan by discriminate; discriminate.
  - intros ->. reflexivity.
Qed.

(** Every double is negative, a zero, positive or not a number, and the
    four comparisons with [0.0] that the sources make are decided by
    which. *)
Lemma double_against_zero (x : double) :
  ((x <? 0)%float = true /\ (x <=? 0)%float = true /\ (0 <=? x)%float = false /\
   (0 <? x)%float = false /\ is_nan x = false) \/
  ((x <? 0)%float = false /\ (x <=? 0)%float = true /\ (0 <=? x)%float = true /\
   (0 <? x)%float = false /\ is_nan x = false) \/
  ((x <? 0)%float = false /\ (x <=? 0)%float = false /\ (0 <=? x)%float = true /\
   (0 <? x)%float = true /\ is_nan x = false) \/
  ((x <? 0)%float = false /\ (x <=? 0)%float = false /\ (0 <=? x)%float = false /\
   (0 <? x)%float = false /\ is_nan x = true).
Proof.
  assert (is_nan x = match Prim2SF x with S754_nan => true | _ => false end) as ->.
  { destruct (is_nan x) eqn:Hn.
    - apply is_nan_spec in Hn. rewrite Hn. reflexivity.
    - destruct (Prim2SF x) eqn:Hx; try reflexivity.
      apply is_nan_spec in Hx. congruence. }
  rewrite !ltb_spec, !leb_spec.
  change (Prim2SF 0) with (S754_zero false).
  destruct (Prim2SF x) as [s|s| |s m e]; try destruct s; cbn; tauto.
Qed.

Lemma sub_nan (x y : double) : is_nan y = true -> is_nan (x - y)%float = true.
Proof.
  rewrite !is_nan_spec, sub_spec. intros ->.
  unfold SF64sub, SFsub. destruct (Prim2SF x); reflexivity.
Qed.

Lemma is_nan_eq (x : double) : is_nan x = true -> x = nan.
Proof.
  intros Hx. apply Prim2SF_inj. apply is_nan_spec in Hx. rewrite Hx. reflexivity.
Qed.

(** X1. The guard of [UpperLimbModel::step] splits the doubles in two.
    For [dt <= 0.0] the call throws [invalid_argument] and touches
    nothing.  Every other double is let through, and these are the
    positive ones and the ones that are not a number, for which
    [dt <= 0.0] is false as well: the observers of the tree are then
    notified with that [dt], in notification order, and when their
    [onStep] return normally the call returns normally and leaves the tree
    Stepping. *)
Theorem step_guard_lets_nan_through {St} (dt : double) (m : tgModel St)
  (w : World St) :
  ((dt <=? 0)%float = true /\
   step dt m w = (inl (InvalidArgument "dt is not positive"), m, w)) \/
  (((0 <? dt)%float = true \/ is_nan dt = true) /\
   match step dt m w with
   | (r, m', w') =>
       logsPrefix (stepTrace dt m) w r w' /\
       (stepSafe dt m -> r = inr tt /\ m' = markAll Stepping m)
   end).
Proof.
  destruct (double_against_zero dt)
    as [(_ & Hle & _)|[(_ & Hle & _)|[(_ & Hle & _ & Hpos & _)|(_ & Hle & _ & _ & Hnan)]]].
  - left. split; [exact Hle | apply step_guard; exact Hle].
  - left. split; [exact Hle | apply step_guard; exact Hle].
  - right. split; [left; exact Hpos|].
    pose proof (step_logs dt m Hle w) as Hlogs.
    pose proof (fun Hs => step_returns dt m Hle Hs w) as Hret.
    destruct (step dt m w) as [[r m'] w']. destruct Hlogs as [Hlog _].
    split; [exact Hlog|]. intros Hsafe. destruct (Hret Hsafe) as [s' Heq].
    inversion Heq. split; reflexivity.
  - right. split; [right; exact Hnan|].
    pose proof (step_logs dt m Hle w) as Hlogs.
    pose proof (fun Hs => step_returns dt m Hle Hs w) as Hret.
    destruct (step dt m w) as [[r m'] w']. destruct Hlogs as [Hlog _].
    split; [exact Hlog|]. intros Hsafe. destruct (Hret Hsafe) as [s' Heq].
    inversion Heq. split; reflexivity.
Qed.

(** X1 on the stub model: a step by a [dt] that is not a number returns
    normally, and the three observers of the tree have been handed it. *)
Lemma step_guard_lets_nan_through_witness :
  exists w',
    step nan stubModel (mkWorld [] 0%nat)
    = (inr tt, markAll Stepping stubModel, w') /\
    w_log w' = [EvOnStep "first" nan; EvOnStep "second" nan; EvOnStep "inner" nan].
Proof.
  destruct (step_guard_lets_nan_through nan stubModel (mkWorld [] 0%nat))
    as [[Hle _]|[_ Hrun]]; [vm_compute in Hle; discriminate|].
  destruct (step nan stubModel (mkWorld [] 0%nat)) as [[r m'] w'].
  destruct Hrun as [(evs & Hlog & _ & Hall) Hret].
  destruct (Hret (stubModel_stepSafe nan)) as [-> ->].
  exists w'. split; [reflexivity|].
  rewrite Hlog, (Hall eq_refl). reflexivity.
Defined.

(* ===================================================================== *)
(** ** [T6RestLengthController]: what the checks let through *)
(* ===================================================================== *)

Section Unchecked.

Context {T : Type} `{LinearString T}.

Implicit Types (heap : gmap nat T) (muscles pre post : list nat).

(** X2. The constructor's check [restLengthDiff < 0.0] throws for the
    negative doubles and for no other: it constructs a controller for
    every [restLengthDiff >= 0.0] and also for a [restLengthDiff] that is
    not a number, which compares false with everything.  With such a
    controller [onSetup] requests, for every muscle of a vector without
    null pointers, a rest length that is not a number, whatever the
    muscle's start length. *)
Theorem constructor_lets_nan_through (restLengthDiff : double)
  (subject : T6RestLengthController.T6Model) heap :
  ((restLengthDiff <? 0)%float = true /\
   T6RestLengthController.new restLengthDiff
   = inl (InvalidArgument "You tried to push a rope!")) \/
  (((0 <=? restLengthDiff)%float = true \/ is_nan restLengthDiff = true) /\
   T6RestLengthController.new restLengthDiff
   = inr (T6RestLengthController.mkController restLengthDiff) /\
   (is_nan restLengthDiff = true ->
    Forall (fun p => is_Some (heap !! p))
           (T6RestLengthController.getAllMuscles subject) ->
    T6RestLengthController.onSetup
      (T6RestLengthController.mkController restLengthDiff) subject heap
    = (inr tt,
       foldl (fun h p => alter (setRestLengthSingleStep nan) p h) heap
             (T6RestLengthController.getAllMuscles subject)))).
Proof.
  assert (is_nan restLengthDiff = true ->
          Forall (fun p => is_Some (heap !! p))
                 (T6RestLengthController.getAllMuscles subject) ->
          T6RestLengthController.onSetup
            (T6RestLengthController.mkController restLengthDiff) subject heap
          = (inr tt,
             foldl (fun h p => alter (setRestLengthSingleStep nan) p h) heap
                   (T6RestLengthController.getAllMuscles subject))) as Hsetup.
  { intros Hnan Hlive. rewrite onSetup_loop by exact Hlive. f_equal.
    cbn [T6RestLengthController.m_restLengthDiff].
    assert (forall m : T, retarget restLengthDiff m = setRestLengthSingleStep nan m)
      as Hre.
    { intros m. unfold retarget. f_equal. apply is_nan_eq, sub_nan. exact Hnan. }
    clear Hlive. generalize (T6RestLengthController.getAllMuscles subject).
    intros muscles. revert heap.
    induction muscles as [|p ps IH]; intros heap; [reflexivity|].
    cbn [foldl]. rewrite IH. f_equal.
    apply map_eq. intros q. rewrite !lookup_alter.
    destruct (decide (p = q)); [|reflexivity].
    destruct (heap !! p); [cbn; rewrite Hre; reflexivity | reflexivity]. }
  unfold T6RestLengthController.new.
  destruct (double_against_zero restLengthDiff)
    as [(Hlt & _)|[(Hlt & _ & Hge & _)|[(Hlt & _ & Hge & _)|(Hlt & _ & _ & _ & Hnan)]]];
    rewrite Hlt; auto.
Qed.

(** The loop of [onSetup] on a vector whose first null pointer comes
    after [pre]. *)
Lemma onSetup_prefix_then_null
  (this : T6RestLengthController.T6RestLengthController) pre post (p : nat) heap :
  Forall (fun q => is_Some (heap !! q)) pre -> heap !! p = None ->
  T6RestLengthController.onSetup this
    (T6RestLengthController.mkT6Model (pre ++ p :: post)) heap
  = (inl (AssertionFailed "pMuscle != NULL"),
     foldl (fun h q => alter (retarget (T6RestLengthController.m_restLengthDiff this)) q h)
           heap pre).
Proof.
  unfold T6RestLengthController.onSetup.
  cbn [T6RestLengthController.getAllMuscles].
  revert heap. induction pre as [|q qs IH]; intros heap Hlive Hnull.
  - cbn [app forEach foldl]. unfold bind at 1. unfold bind at 1.
    unfold T6RestLengthController.deref at 1. rewrite Hnull. reflexivity.
  - inversion Hlive as [|? ? [m Hq] Hrest]; subst.
    cbn [app forEach foldl]. unfold bind at 1. unfold bind at 1.
    unfold T6RestLengthController.deref at 1. rewrite Hq.
    unfold T6RestLengthController.store at 1.
    assert (<[q := setRestLengthSingleStep
                     (getStartLength m - T6RestLengthController.m_restLengthDiff this)%float
                     m]> heap
            = alter (retarget (T6RestLengthController.m_restLengthDiff this)) q heap)
      as ->.
    { apply map_eq. intros q'. rewrite lookup_insert, lookup_alter.
      destruct (decide (q = q')); [rewrite Hq; reflexivity | reflexivity]. }
    apply IH.
    + eapply Forall_impl; [exact Hrest|]. intros q' Hq'.
      apply lookup_alter_is_Some. exact Hq'.
    + rewrite lookup_alter_ne; [exact Hnull|]. intros ->. congruence.
Qed.

(** X3. [onSetup] does not look at the vector before it starts to write.
    When the entry after [pre] is the first null pointer, the assertion
    fails there, and by then every muscle of [pre] has received its new
    rest length: the call ends with the failed assertion and leaves the
    muscles before the null pointer updated, once each when [pre] names
    each once, and every muscle outside [pre] as it was, those behind the
    null pointer included. *)
Theorem onSetup_stops_at_first_null
  (this : T6RestLengthController.T6RestLengthController)
  (subject : T6RestLengthController.T6Model) pre post (p : nat) heap :
  T6RestLengthController.getAllMuscles subject = pre ++ p :: post ->
  Forall (fun q => is_Some (heap !! q)) pre -> heap !! p = None ->
  exists heap',
    T6RestLengthController.onSetup this subject heap
    = (inl (AssertionFailed "pMuscle != NULL"), heap') /\
    heap' = foldl (fun h q =>
                     alter (retarget (T6RestLengthController.m_restLengthDiff this)) q h)
                  heap pre /\
    (forall q, q ∈ pre -> NoDup pre ->
       heap' !! q
       = retarget (T6RestLengthController.m_restLengthDiff this) <$> heap !! q) /\
    (forall q, q ∉ pre -> heap' !! q = heap !! q).
Proof.
  intros Hsubject Hlive Hnull. destruct subject as [muscles].
  cbn [T6RestLengthController.getAllMuscles] in Hsubject. subst muscles.
  eexists. split; [apply onSetup_prefix_then_null; assumption|].
  split; [reflexivity|]. split.
  - intros q Hq Hnd. apply lookup_retarget_once; assumption.
  - intros q Hq. apply lookup_retarget_other. exact Hq.
Qed.

Lemma onStep_loop_null (diff : double) muscles heap :
  Exists (fun p => heap !! p = None) muscles ->
  forEach (fun pMuscle =>
             muscle <~ T6RestLengthController.deref pMuscle ;;
             let desiredRestLength := (getStartLength muscle - diff)%float in
             ret tt)%comp muscles heap
  = (inl (AssertionFailed "pMuscle != NULL"), heap).
Proof.
  induction 1 as [p ps Hp|p ps _ IH].
  - cbn [forEach]. unfold bind at 1. unfold bind at 1.
    unfold T6RestLengthController.deref at 1. rewrite Hp. reflexivity.
  - cbn [forEach]. unfold bind at 1. unfold bind at 1.
    unfold T6RestLengthController.deref at 1.
    destruct (heap !! p); [cbn; exact IH | reflexivity].
Qed.

(** X4. The outcome of [onStep], for every [dt], subject and heap.  The
    check on [dt] comes first: [dt <= 0.0] throws [invalid_argument] even
    when the vector holds a null pointer.  Otherwise the call returns
    normally when no entry of the vector is null and ends with the failed
    assertion when one is.  In all three cases the muscles are left as
    they were, and neither the outcome nor the heap depends on
    [m_restLengthDiff] or on any start length: the rest length the loop
    computes is used for nothing. *)
Theorem onStep_outcome
  (this : T6RestLengthController.T6RestLengthController)
  (subject : T6RestLengthController.T6Model) (dt : double) heap :
  T6RestLengthController.onStep this subject dt heap
  = (if (dt <=? 0)%float then inl (InvalidArgument "dt is not positive")
     else if forallb (fun p => bool_decide (is_Some (heap !! p)))
                     (T6RestLengthController.getAllMuscles subject)
          then inr tt
          else inl (AssertionFailed "pMuscle != NULL"),
     heap).
Proof.
  unfold T6RestLengthController.onStep.
  generalize (T6RestLengthController.getAllMuscles subject). intros muscles.
  destruct (dt <=? 0)%float; [reflexivity|].
  destruct (forallb _ muscles) eqn:Hall.
  - apply (onStep_loop_returns (T6RestLengthController.m_restLengthDiff this)).
    apply Forall_forall. intros p Hp. rewrite forallb_forall in Hall.
    apply list_elem_of_In in Hp. apply Hall in Hp.
    apply bool_decide_eq_true in Hp. exact Hp.
  - apply (onStep_loop_null (T6RestLengthController.m_restLengthDiff this)).
    apply Exists_exists.
    assert (exists p, In p muscles /\
                      bool_decide (is_Some (heap !! p)) = false) as (p & Hp & Hnull).
    { clear -Hall. induction muscles as [|p ps IH]; [discriminate|].
      cbn in Hall. apply andb_false_iff in Hall as [Hp|Hps].
      - exists p. split; [left; reflexivity | exact Hp].
      - destruct (IH Hps) as (q & Hq & Hnull). exists q. split; [right|]; assumption. }
    exists p. split; [apply list_elem_of_In; exact Hp|].
    apply bool_decide_eq_false in Hnull.
    destruct (heap !! p) eqn:Hlook; [|reflexivity].
    exfalso. apply Hnull. eexists. reflexivity.
Qed.

(** The updates of [onSetup] on one address, for an update that repeats
    without effect. *)
Lemma lookup_retarget_any (f : T -> T) muscles heap (p : nat) :
  (forall m, f (f m) = f m) ->
  foldl (fun h q => alter f q h) heap muscles !! p
  = if bool_decide (p ∈ muscles) then f <$> heap !! p else heap !! p.
Proof.
  intros Hidem. revert heap. induction muscles as [|q qs IH]; intros heap.
  - reflexivity.
  - cbn [foldl]. rewrite IH. rewrite lookup_alter.
    destruct (decide (q = p)) as [->|Hne].
    + rewrite (bool_decide_eq_true_2 (p ∈ p :: qs))
        by (apply elem_of_cons; left; reflexivity).
      destruct (bool_decide (p ∈ qs)); [|reflexivity].
      destruct (heap !! p); cbn; [rewrite Hidem|]; reflexivity.
    + destruct (bool_decide (p ∈ qs)) eqn:Hin.
      * apply bool_decide_eq_true in Hin.
        rewrite (bool_decide_eq_true_2 (p ∈ q :: qs))
          by (apply elem_of_cons; right; exact Hin).
        reflexivity.
      * apply bool_decide_eq_false in Hin.
        rewrite (bool_decide_eq_false_2 (p ∈ q :: qs)); [reflexivity|].
        intros Hp. apply elem_of_cons in Hp as [->|Hp]; [congruence | auto].
Qed.

(** X5. For muscles whose start length is not changed by
    [setRestLengthSingleStep] and whose last request replaces the earlier
    ones, [onSetup] computes every rest length from the start length
    alone.  On a vector without null pointers it therefore leaves each
    muscle the vector names, however often it names it, with the rest
    length [getStartLength() - m_restLengthDiff] and every other muscle as
    it was, and a second [onSetup] on the result changes nothing. *)
Theorem onSetup_idempotent
  (this : T6RestLengthController.T6RestLengthController)
  (subject : T6RestLengthController.T6Model) heap :
  (forall l (m : T), getStartLength (setRestLengthSingleStep l m) = getStartLength m) ->
  (forall l l' (m : T),
     setRestLengthSingleStep l (setRestLengthSingleStep l' m)
     = setRestLengthSingleStep l m) ->
  Forall (fun p => is_Some (heap !! p))
         (T6RestLengthController.getAllMuscles subject) ->
  exists heap',
    T6RestLengthController.onSetup this subject heap = (inr tt, heap') /\
    (forall p, heap' !! p
               = if bool_decide (p ∈ T6RestLengthController.getAllMuscles subject)
                 then retarget (T6RestLengthController.m_restLengthDiff this)
                        <$> heap !! p
                 else heap !! p) /\
    T6RestLengthController.onSetup this subject heap' = (inr tt, heap').
Proof.
  intros Hstart Hset Hlive.
  set (diff := T6RestLengthController.m_restLengthDiff this).
  assert (forall m : T, retarget diff (retarget diff m) = retarget diff m) as Hidem.
  { intros m. unfold retarget. rewrite Hstart, Hset. reflexivity. }
  eexists. split; [apply onSetup_loop; exact Hlive|]. fold diff.
  split; [intros p; apply lookup_retarget_any; exact Hidem|].
  rewrite onSetup_loop.
  - f_equal. fold diff. apply map_eq. intros p.
    rewrite !lookup_retarget_any by exact Hidem.
    destruct (bool_decide _); [|reflexivity].
    destruct (heap !! p); cbn; [rewrite Hidem|]; reflexivity.
  - eapply Forall_impl; [exact Hlive|]. intros p Hp. cbn beta in *.
    rewrite lookup_retarget_any by exact Hidem.
    destruct (bool_decide _); [|exact Hp].
    destruct Hp as [m ->]. eexists. reflexivity.
Qed.

End Unchecked.

(** X2 on the stub muscles: a controller is constructed from a difference
    that is not a number, and its [onSetup] sets the rest length of a
    muscle of start length 10 to a value that is not a number. *)
Lemma constructor_lets_nan_through_witness :
  let subject := T6RestLengthController.mkT6Model [1]%nat in
  let heap : gmap nat StubString := <[1%nat := mkStubString 10 10]> ∅ in
  exists this heap',
    T6RestLengthController.new nan = inr this /\
    T6RestLengthController.onSetup this subject heap = (inr tt, heap') /\
    heap' !! 1%nat = Some (mkStubString 10 nan).
Proof.
  intros subject heap.
  destruct (constructor_lets_nan_through nan subject heap)
    as [[Hlt _]|(_ & Hnew & Hsetup)]; [vm_compute in Hlt; discriminate|].
  assert (Forall (fun p => is_Some (heap !! p))
                 (T6RestLengthController.getAllMuscles subject)) as Hlive.
  { repeat constructor; eexists; reflexivity. }
  eexists _, _. split; [exact Hnew|]. split; [exact (Hsetup eq_refl Hlive)|].
  reflexivity.
Defined.

(** X3 on three entries of which the second is null: the first muscle has
    its new rest length, the third has not been reached. *)
Lemma onSetup_stops_at_first_null_witness :
  let this := T6RestLengthController.mkController 2.5 in
  let subject := T6RestLengthController.mkT6Model [1; 2; 3]%nat in
  let heap : gmap nat StubString :=
    <[1%nat := mkStubString 10 10]> (<[3%nat := mkStubString 12 12]> ∅) in
  exists heap',
    T6RestLengthController.onSetup this subject heap
    = (inl (AssertionFailed "pMuscle != NULL"), heap') /\
    heap' !! 1%nat = Some (mkStubString 10 7.5) /\
    heap' !! 3%nat = Some (mkStubString 12 12).
Proof.
  intros this subject heap.
  destruct (onSetup_stops_at_first_null this subject [1%nat] [3%nat] 2%nat heap)
    as (heap' & Hrun & _ & Hpre & Hrest).
  - reflexivity.
  - repeat constructor. eexists. reflexivity.
  - reflexivity.
  - exists heap'. split; [exact Hrun|]. split.
    + rewrite Hpre; [reflexivity | apply elem_of_cons; left; reflexivity
                                 | apply NoDup_singleton].
    + rewrite Hrest; [reflexivity|].
      apply not_elem_of_cons. split; [discriminate | apply not_elem_of_nil].
Defined.

(** X5 on the stub muscles, with a vector that names the first muscle
    twice: it ends with the rest length 7.5, as after a single update,
    and a second [onSetup] changes nothing. *)
Lemma onSetup_idempotent_witness :
  let this := T6RestLengthController.mkController 2.5 in
  let subject := T6RestLengthController.mkT6Model [1; 1; 2]%nat in
  let heap : gmap nat StubString :=
    <[1%nat := mkStubString 10 10]> (<[2%nat := mkStubString 12 12]> ∅) in
  exists heap',
    T6RestLengthController.onSetup this subject heap = (inr tt, heap') /\
    heap' !! 1%nat = Some (mkStubString 10 7.5) /\
    heap' !! 2%nat = Some (mkStubString 12 9.5) /\
    T6RestLengthController.onSetup this subject heap' = (inr tt, heap').
Proof.
  intros this subject heap.
  destruct (onSetup_idempotent this subject heap)
    as (heap' & Hrun & Hlook & Hagain).
  - intros l m. reflexivity.
  - intros l l' m. reflexivity.
  - repeat constructor; eexists; reflexivity.
  - exists heap'. split; [exact Hrun|]. split; [rewrite Hlook; reflexivity|].
    split; [rewrite Hlook; reflexivity | exact Hagain].
Defined.

(* ===================================================================== *)
(** ** [UpperLimbModel]: the graph that [setup] describes *)
(* ===================================================================== *)

Lemma fold_addNode_by_index (ps : list btVector3) (n : nat) (s : tgStructure) :
  (n <= length ps)%nat ->
  fold_left (fun s0 i =>
               match ps !! i with
               | Some p => fst (addNode (vx p) (vy p) (vz p) s0)
               | None => s0
               end) (seq 0 n) s
  = fold_left (fun s0 p => fst (addNode (vx p) (vy p) (vz p) s0)) (take n ps) s.
Proof.
  intros Hn.
  assert (forall k pre, length pre = k -> (n <= length ps)%nat ->
            forall s, fold_left (fun s0 i =>
                         match (pre ++ ps) !! i with
                         | Some p => fst (addNode (vx p) (vy p) (vz p) s0)
                         | None => s0
                         end) (seq k n) s
            = fold_left (fun s0 p => fst (addNode (vx p) (vy p) (vz p) s0))
                        (take n ps) s) as Hgen.
  { clear. revert ps. induction n as [|n IH]; intros ps k pre Hk Hn s; [reflexivity|].
    destruct ps as [|p ps]; [cbn in Hn; lia|].
    cbn [seq take fold_left].
    rewrite lookup_app_r by lia. rewrite Hk, Nat.sub_diag. cbn [lookup list_lookup].
    specialize (IH ps (S k) (pre ++ [p])).
    rewrite <- app_assoc in IH. cbn [app] in IH. apply IH.
    - rewrite length_app. cbn. lia.
    - cbn in Hn. lia. }
  apply (Hgen 0%nat [] eq_refl Hn).
Qed.

Lemma fold_addNode (ps : list btVector3) (s : tgStructure) :
  fold_left (fun s0 p => fst (addNode (vx p) (vy p) (vz p) s0)) ps s
  = Structure (s_nodes s ++ map (fun p => mkNode p []) ps)
              (s_pairs s) (s_children s).
Proof.
  revert s. induction ps as [|p ps IH]; intros [ns pairs cs].
  - cbn. rewrite app_nil_r. reflexivity.
  - cbn [fold_left]. rewrite IH. cbn. rewrite <- app_assoc. destruct p. reflexivity.
Qed.

(** X6. [addNodes] appends its fourteen positions to [nodePositions],
    which grows by fourteen entries with every call, and then reads the
    first fourteen entries of the whole vector, never past its end.  The
    call adds fourteen nodes behind those the structure has and leaves
    pairs and children alone.  On an empty vector, and on a vector that
    earlier calls of [addNodes] have filled, these are the nodes of the
    fourteen positions just pushed; on a vector that held fourteen or
    more entries before the call they are the first fourteen entries it
    held, and the positions just pushed are not read. *)
Theorem addNodes_reads_first_fourteen (member : list btVector3) (s : tgStructure) :
  match addNodes_appending member s with
  | (nodePositions', s') =>
      nodePositions' = member ++ UpperLimbModel.nodePositions /\
      length nodePositions' = (length member + 14)%nat /\
      (forall i, (i < UpperLimbModel.nNodes)%nat -> is_Some (nodePositions' !! i)) /\
      s_nodes s' = s_nodes s
                   ++ map (fun p => mkNode p [])
                          (take UpperLimbModel.nNodes nodePositions') /\
      s_pairs s' = s_pairs s /\ s_children s' = s_children s /\
      (forall k, member = concat (replicate k UpperLimbModel.nodePositions) ->
                 s' = UpperLimbModel.addNodes s) /\
      ((UpperLimbModel.nNodes <= length member)%nat ->
       s_nodes s' = s_nodes s
                    ++ map (fun p => mkNode p [])
                           (take UpperLimbModel.nNodes member))
  end.
Proof.
  unfold addNodes_appending. cbv zeta.
  assert ((UpperLimbModel.nNodes <= length (member ++ UpperLimbModel.nodePositions))%nat)
    as Hlen.
  { rewrite length_app. change (length UpperLimbModel.nodePositions) with 14%nat.
    unfold UpperLimbModel.nNodes. lia. }
  rewrite (fold_addNode_by_index _ _ s Hlen), fold_addNode.
  cbn [s_nodes s_pairs s_children].
  split; [reflexivity|]. split; [rewrite length_app; reflexivity|].
  split.
  { intros i Hi. apply lookup_lt_is_Some. lia. }
  split; [reflexivity|]. split; [reflexivity|]. split; [reflexivity|].
  split.
  { intros k ->. unfold UpperLimbModel.addNodes. rewrite fold_addNode. do 3 f_equal.
    destruct k as [|k]; [reflexivity|].
    cbn [replicate concat]. rewrite <- app_assoc.
    rewrite take_app_le by (change (length UpperLimbModel.nodePositions) with 14%nat;
                            unfold UpperLimbModel.nNodes; lia).
    reflexivity. }
  intros Hmember. rewrite take_app_le by exact Hmember. reflexivity.
Qed.

(** A run of [addPair] statements stops at the first statement with an
    index outside the scope, and records all pairs when there is none. *)
Lemma addPairs_outcome (tagsOf : string -> list string)
  (calls : list (Z * Z * string)) (s : tgStructure) :
  UpperLimbModel.addPairs tagsOf calls s
  = match List.find (fun call => negb (callInScope s call)) calls with
    | Some (i, j, _) => inl (InvalidIndex i j)
    | None => inr (Structure (s_nodes s)
                             (s_pairs s ++ map (pairOfCall tagsOf) calls)
                             (s_children s))
    end.
Proof.
  destruct s as [ns ps cs]. cbn [s_nodes s_pairs s_children].
  assert (forall ps' call, callInScope (Structure ns ps' cs) call
                           = callInScope (Structure ns ps cs) call) as Hsame.
  { intros ps' [[i j] str]. reflexivity. }
  generalize ps at 1 3 as ps0.
  induction calls as [|[[i j] str] calls IH]; intros ps0.
  - cbn. rewrite app_nil_r. reflexivity.
  - cbn [UpperLimbModel.addPairs List.find]. unfold addPair.
    pose proof (Hsame ps0 (i, j, str)) as Hhere. cbn [callInScope] in Hhere.
    rewrite Hhere.
    change (in_scope (Structure ns ps cs) i && in_scope (Structure ns ps cs) j)
      with (callInScope (Structure ns ps cs) (i, j, str)).
    destruct (callInScope (Structure ns ps cs) (i, j, str));
      cbn [negb bindE]; [|reflexivity].
    rewrite IH.
    destruct (List.find _ calls) as [[[i' j'] str']|]; [reflexivity|].
    cbn [map pairOfCall]. rewrite <- app_assoc. reflexivity.
Qed.

Ltac all_below n :=
  repeat (match goal with
          | |- context [(?a <? Z.of_nat n)%Z] =>
              replace (a <? Z.of_nat n)%Z with true by (symmetry; apply Z.ltb_lt; lia)
          end).

Ltac first_not_below n :=
  repeat (match goal with
          | |- context [(?a <? Z.of_nat n)%Z] =>
              destruct (Z.ltb_spec a (Z.of_nat n));
              cbn [Z.leb andb negb Z.compare]
          end);
  try (eexists _, _; split; [reflexivity | lia]); lia.

(** X7. [addRods] and [addMuscles] depend on the nodes being there.
    [addRods] returns normally exactly on a structure with at least
    fourteen nodes and [addMuscles] exactly on one with at least eleven;
    they then append eleven and eighteen pairs, every one between nodes of
    the structure, and leave nodes and children alone, whatever the tag
    strings are read as.  On a smaller structure the first [addPair] with
    an index that is not a node throws [InvalidIndex] with its two
    indices. *)
Theorem addRods_addMuscles_need_nodes (tagsOf : string -> list string)
  (s : tgStructure) :
  (if (14 <=? length (s_nodes s))%nat then
     exists added,
       UpperLimbModel.addRods tagsOf s
       = inr (Structure (s_nodes s) (s_pairs s ++ added) (s_children s)) /\
       length added = 11%nat /\
       Forall (fun p => pairInScope (s_nodes s) p = true) added
   else exists i j, UpperLimbModel.addRods tagsOf s = inl (InvalidIndex i j) /\
                    (Z.of_nat (length (s_nodes s)) <= Z.max i j)%Z) /\
  (if (11 <=? length (s_nodes s))%nat then
     exists added,
       UpperLimbModel.addMuscles tagsOf s
       = inr (Structure (s_nodes s) (s_pairs s ++ added) (s_children s)) /\
       length added = 18%nat /\
       Forall (fun p => pairInScope (s_nodes s) p = true) added
   else exists i j, UpperLimbModel.addMuscles tagsOf s = inl (InvalidIndex i j) /\
                    (Z.of_nat (length (s_nodes s)) <= Z.max i j)%Z).
Proof.
  unfold UpperLimbModel.addRods, UpperLimbModel.addMuscles.
  rewrite !addPairs_outcome.
  unfold callInScope, in_scope, pairInScope.
  set (n := length (s_nodes s)).
  split.
  - destruct (14 <=? n)%nat eqn:Hn.
    + apply Nat.leb_le in Hn. cbn [List.find]. all_below n.
      cbn [Z.leb andb negb].
      eexists. split; [reflexivity|]. split; [reflexivity|].
      cbn [map pairOfCall p_from p_to].
      repeat constructor; apply andb_true_iff; split; apply Nat.ltb_lt; cbn; lia.
    + apply Nat.leb_gt in Hn. cbn [List.find]. first_not_below n.
  - destruct (11 <=? n)%nat eqn:Hn.
    + apply Nat.leb_le in Hn. cbn [List.find]. all_below n.
      cbn [Z.leb andb negb].
      eexists. split; [reflexivity|]. split; [reflexivity|].
      cbn [map pairOfCall p_from p_to].
      repeat constructor; apply andb_true_iff; split; apply Nat.ltb_lt; cbn; lia.
    + apply Nat.leb_gt in Hn. cbn [List.find]. first_not_below n.
Qed.

(* ===================================================================== *)
(** ** [UpperLimbModel]: [setup] followed by [teardown] *)
(* ===================================================================== *)

Lemma getDescendants_modelOfResolved {St} (r : Resolved) :
  getDescendants (@modelOfResolved St r) = allEntities r.
Proof.
  induction r as [es kids IH] using Resolved_tree_ind.
  cbn [modelOfResolved getDescendants m_entities m_children allEntities].
  f_equal. induction IH as [|k kids Hk _ IHkids]; [reflexivity|].
  cbn [map concat]. rewrite Hk, IHkids. reflexivity.
Qed.

Lemma teardownTrace_Model {St} (os : list (tgObserver St)) (ms es : list Entity)
  (cs : list (tgModel St)) (l : Lifecycle) :
  teardownTrace (Model os ms es cs l)
  = map (fun o => EvOnTeardown (obs_name o)) os
    ++ concat (map teardownTrace cs) ++ map EvRelease es.
Proof. reflexivity. Qed.

Lemma teardownTrace_markAll {St} (l : Lifecycle) (m : tgModel St) :
  teardownTrace (markAll l m) = teardownTrace m.
Proof.
  induction m as [os ms es cs l0 IH] using tgModel_tree_ind.
  rewrite markAll_Model, !teardownTrace_Model. do 2 f_equal.
  induction IH as [|c cs Hc _ IHcs]; [reflexivity|].
  cbn [map concat]. rewrite Hc, IHcs. reflexivity.
Qed.

Lemma teardownTrace_modelOfResolved {St} (r : Resolved) :
  teardownTrace (@modelOfResolved St r) = map EvRelease (releaseOrder r).
Proof.
  induction r as [es kids IH] using Resolved_tree_ind.
  cbn [modelOfResolved releaseOrder]. rewrite teardownTrace_Model.
  cbn [map app]. rewrite map_app. f_equal.
  induction IH as [|k kids Hk _ IHkids]; [reflexivity|].
  cbn [map concat]. rewrite Hk, IHkids, map_app. reflexivity.
Qed.

Lemma releaseOrder_Permutation (r : Resolved) :
  Permutation (releaseOrder r) (allEntities r).
Proof.
  induction r as [es kids IH] using Resolved_tree_ind.
  cbn [releaseOrder allEntities].
  rewrite Permutation_app_comm. apply Permutation_app_head.
  induction IH as [|k kids Hk _ IHkids]; [reflexivity|].
  cbn [map concat]. apply Permutation_app; assumption.
Qed.

(** X8. [setup] followed by [teardown], on an object that owns nothing
    yet, for a structure that resolves and observers whose [onSetup] and
    [onTeardown] return normally.  Both calls return normally, and the
    log reads: every entity of the resolved graph created, the observers'
    [onSetup] in attachment order, their [onTeardown] in the same order,
    every entity released, the children's before the object's own.  The
    released entities are the created ones, each once, and the object
    owns none afterwards.  [teardown] does not touch [allMuscles]:
    [getAllMuscles] still returns the actuators that [setup] collected,
    all of which have been released. *)
Theorem teardown_after_setup_keeps_muscles {St} (s : tgStructure)
  (spec : gmap string tgBuilder) (r : Resolved)
  (os : list (tgObserver St)) (ms : list Entity) (l : Lifecycle) (w : World St) :
  resolveGraph spec s = inr r ->
  Forall (fun o => forall subject, returns_normally (onSetup o subject)) os ->
  Forall (fun o => forall subject, returns_normally (onTeardown o subject)) os ->
  exists m1 w1 m2 w2,
    setup (inr s) spec (Model os ms [] [] l) w = (inr tt, m1, w1) /\
    teardown m1 w1 = (inr tt, m2, w2) /\
    w_log w2 = w_log w
               ++ map EvCreate (allEntities r)
               ++ map (fun o => EvOnSetup (obs_name o)) os
               ++ map (fun o => EvOnTeardown (obs_name o)) os
               ++ map EvRelease (releaseOrder r) /\
    Permutation (releaseOrder r) (allEntities r) /\
    getDescendants m1 = allEntities r /\
    getDescendants m2 = [] /\
    getAllMuscles m1 = filter (fun e => isActuator e = true) (allEntities r) /\
    getAllMuscles m2 = getAllMuscles m1.
Proof.
  intros Hres Hsetup Hteardown. destruct r as [es kids].
  unfold setup, buildInto. rewrite Hres. cbv zeta. unfold notifySetup.
  cbn [withMuscles m_observers allMuscles app].
  set (muscles := filter _ _).
  set (w1 := mkWorld _ (w_state w)).
  destruct (notify_returns (fun o => EvOnSetup (obs_name o))
              (fun o => onSetup o muscles) os w1) as [s2 ->].
  { eapply Forall_impl; [exact Hsetup|]. intros o Ho. apply Ho. }
  set (m2 := Model os muscles es (map modelOfResolved kids) l).
  destruct (tgModel_setup_returns m2) with
    (w := mkWorld (w_log w1 ++ map (fun o => EvOnSetup (obs_name o)) os) s2)
    as [s3 ->].
  { cbn [m2 m_children]. apply Forall_forall. intros c Hc.
    apply list_elem_of_In in Hc. apply in_map_iff in Hc as (k & <- & _).
    unfold setupSafe. rewrite treeObservers_modelOfResolved. constructor. }
  cbn [m2 m_children w_log w1]. rewrite setupTrace_built, app_nil_r.
  set (m3 := markAll SetUp _).
  assert (teardownSafe m3) as Hsafe.
  { unfold teardownSafe, m3. rewrite treeObservers_markAll. unfold m2.
    rewrite treeObservers_Model.
    rewrite treeObservers_built, app_nil_r.
    apply Forall_forall. intros [o sub] Ho. apply list_elem_of_In in Ho.
    apply in_map_iff in Ho as (o' & [= <- <-] & Ho').
    cbn [fst snd]. rewrite Forall_forall in Hteardown. apply Hteardown.
    apply list_elem_of_In. exact Ho'. }
  destruct (teardown_returns m3 Hsafe
              (mkWorld ((w_log w ++ map EvCreate (allEntities (ResolvedScope es kids)))
                        ++ map (fun o => EvOnSetup (obs_name o)) os) s3))
    as [s4 Htear].
  assert (getDescendants m3 = allEntities (ResolvedScope es kids)) as Hdesc.
  { unfold m3. rewrite getDescendants_markAll. unfold m2.
    cbn [getDescendants m_entities m_children allEntities]. f_equal.
    clear. induction kids as [|k kids IH]; [reflexivity|].
    cbn [map concat]. rewrite getDescendants_modelOfResolved, IH. reflexivity. }
  assert (muscles = filter (fun e => isActuator e = true)
                           (allEntities (ResolvedScope es kids))) as Hmuscles.
  { unfold muscles. f_equal. rewrite <- Hdesc. unfold m3.
    rewrite getDescendants_markAll. reflexivity. }
  eexists _, _, _, _. split; [reflexivity|]. split; [exact Htear|].
  split.
  { cbn [w_log]. rewrite <- !app_assoc. do 2 f_equal.
    unfold m3. rewrite teardownTrace_markAll. unfold m2.
    rewrite teardownTrace_Model.
    cbn [releaseOrder]. rewrite map_app. do 3 f_equal.
    clear. induction kids as [|k kids IH]; [reflexivity|].
    cbn [map concat]. rewrite teardownTrace_modelOfResolved, IH, map_app.
    reflexivity. }
  split; [apply releaseOrder_Permutation|].
  split; [exact Hdesc|]. split; [reflexivity|].
  split; [exact Hmuscles | reflexivity].
Qed.

(** X8 on the graph of one rod and a model with two observers: the rod
    is created, both observers are set up and then torn down, the rod is
    released, and the object owns nothing. *)
Lemma teardown_after_setup_keeps_muscles_witness :
  exists m1 w1 m2 w2,
    setup rodStructure rodSpec freshModel (mkWorld [] 0%nat) = (inr tt, m1, w1) /\
    teardown m1 w1 = (inr tt, m2, w2) /\
    w_log w2 = [EvCreate stubRod; EvOnSetup "first"; EvOnSetup "second";
                EvOnTeardown "first"; EvOnTeardown "second"; EvRelease stubRod] /\
    getDescendants m2 = [] /\ getAllMuscles m2 = [].
Proof.
  destruct (teardown_after_setup_keeps_muscles
              (Structure [mkNode (mkVec 0 0 0) []; mkNode (mkVec 0 10 0) []]
                         [mkPair 0 1 ["rod"]] [])
              rodSpec (ResolvedScope [stubRod] [])
              [recorder "first"; recorder "second"] [] Unbuilt (mkWorld [] 0%nat)
              eq_refl)
    as (m1 & w1 & m2 & w2 & Hsetup & Hteardown & Hlog & _ & _ & Hdesc & Hm1 & Hm2).
  - repeat constructor; intros subject n; eexists; reflexivity.
  - repeat constructor; intros subject n; eexists; reflexivity.
  - exists m1, w1, m2, w2. split; [exact Hsetup|]. split; [exact Hteardown|].
    split; [exact Hlog|]. split; [exact Hdesc|]. rewrite Hm2, Hm1. reflexivity.
Defined.

(* ===================================================================== *)
(** ** The ICRA2015 hardware test, run *)
(* ===================================================================== *)

(** X10 on the graph of one rod, an engine that leaves the entity state
    alone and a controller that records its calls: the rod is created,
    the controller is set up, and the run is 120000 times the
    controller's [onStep] followed by the engine's increment. *)
Lemma ICRA2015Static_log_witness :
  exists models s',
    HardwareTest.ICRA2015Static (fun _ (n : nat) => n) (setup rodStructure rodSpec)
                                (Model [] [] [] [] Unbuilt) (recorder "controller")
                                (mkWorld [] 0%nat)
    = (inr tt, models,
       mkWorld ([EvCreate stubRod; EvOnSetup "controller"]
                ++ concat (replicate (Z.to_nat 120000)
                             [EvOnStep "controller" HardwareTest.stepSize;
                              EvIntegrate HardwareTest.stepSize]))
               s').
Proof.
  destruct (ICRA2015Static_log (fun _ (n : nat) => n)
              (Structure [mkNode (mkVec 0 0 0) []; mkNode (mkVec 0 10 0) []]
                         [mkPair 0 1 ["rod"]] [])
              rodSpec (ResolvedScope [stubRod] []) (recorder "controller")
              (mkWorld [] 0%nat) eq_refl) as (models & s' & Hrun).
  - intros subject n. eexists. reflexivity.
  - intros subject n. eexists. reflexivity.
  - assert (forall evs,
              w_log (mkWorld [] 0%nat)
              ++ (map EvCreate (allEntities (ResolvedScope [stubRod] []))
                  ++ [EvOnSetup (obs_name (recorder "controller"))]) ++ evs
              = [EvCreate stubRod; EvOnSetup "controller"] ++ evs) as Hshape
      by reflexivity.
    rewrite Hshape in Hrun.
    change rodStructure
      with (@inr exn _ (Structure [mkNode (mkVec 0 0 0) []; mkNode (mkVec 0 10 0) []]
                                  [mkPair 0 1 ["rod"]] [])).
    exists models, s'. exact Hrun.
Defined.
